(** * Theremin Hero: the FM render callback and the key handler

  A shallow embedding of [theremingame.c] (the game) and of the audio
  callback of [sdltest.c] (its stand-alone precursor), followed by the
  properties of the render engine and of the input command handler.

  Numeric model.  A C [double] or [float] is a real number of [R] and the
  floating operations are the exact ones: [sin] is the real sine, [M_PI]
  is [PI], [fmod] is the truncated remainder below, and the conversion of
  a [double] to a [short] is truncation toward zero.  The entries of the
  [float] table [pitches] are the single-precision values the program
  reads.  The rounding of the arithmetic, and of the store of a sample
  into a [float] in [sdltest.c], is not modelled: the properties below
  say which expression the code evaluates and give bounds and
  invariants, and none of them rests on the exact period of [sin].  A C
  [int] is an integer of [Z]; the additions of the source are wrapped to
  32 bits. *)

From Stdlib Require Import String.
From Stdlib Require Import Reals ZArith List Sorted Bool Lia Lra.
Import ListNotations.

Open Scope R_scope.

(** ** C arithmetic *)

Module CArith.

(** Truncation toward zero: the integral part C keeps when it converts a
    floating value to an integer type, and the quotient [fmod] uses. *)
Definition Rtrunc (x : R) : Z :=
  if Rle_dec 0 x then Int_part x else (- Int_part (- x))%Z.

(** [fmod x y] of [math.h]: [x - n * y] where [n] is [x / y] with its
    fractional part dropped; the result carries the sign of [x]. *)
Definition fmod (x y : R) : R := x - IZR (Rtrunc (x / y)) * y.

(** Implicit conversion of the assignment [dest[i] = <double>] with
    [short *dest]. *)
Definition double_to_short (x : R) : Z := Rtrunc x.

(** Implicit conversion of [int = <float>] in [createWant]. *)
Definition double_to_int (x : R) : Z := Rtrunc x.

Definition SHRT_MIN : Z := (-32768)%Z.
Definition SHRT_MAX : Z := 32767%Z.

(** 32-bit two's complement [int]. *)
Definition int_wrap (z : Z) : Z := ((z + 2 ^ 31) mod 2 ^ 32 - 2 ^ 31)%Z.
Definition int_add (a b : Z) : Z := int_wrap (a + b).
Definition int_sub (a b : Z) : Z := int_wrap (a - b).
(** The [%] of C rounds its quotient toward zero. *)
Definition int_mod (a b : Z) : Z := Z.rem a b.

Definition sizeof_short : nat := 2.
Definition sizeof_float : nat := 4.

End CArith.
Import CArith.

(** ** SDL key codes

  [SDL_Keycode] values of [SDL_keycode.h]: a printable key is its ASCII
  code, an arrow key is its scan code with bit 30 set. *)

Module SDL.

Definition Keycode : Type := Z.

Definition SDLK_BACKSPACE : Keycode := 8%Z.
Definition SDLK_ESCAPE : Keycode := 27%Z.
Definition SDLK_i : Keycode := 105%Z.
Definition SDLK_m : Keycode := 109%Z.
Definition SDLK_q : Keycode := 113%Z.
Definition SDLK_DOWN : Keycode := Z.lor 81 (Z.shiftl 1 30).
Definition SDLK_UP : Keycode := Z.lor 82 (Z.shiftl 1 30).

Inductive AudioFormat : Type := AUDIO_S16SYS | AUDIO_F32.

(** The fields of [SDL_AudioSpec] that the program sets; [callback] and
    [userdata] are pointers to the function and to the state below. *)
Record AudioSpec : Type := mkAudioSpec {
  freq : Z;
  format : AudioFormat;
  channels : Z;
  samples : Z
}.

End SDL.
Import SDL.

(** ** theremingame.c *)

Module ThereminGame.

Definition TAU : R := 2 * PI.

Definition PIANO : R := 2.
Definition GUITAR : R := 0.5.

(** [float pitches[]]: each entry is the single-precision value that
    the initialiser of the source is rounded to. *)
Definition pitches : list R :=
  [ 261.6300048828125   (* C4, 261.63 in the source *);
    293.660003662109375 (* D4, 293.66 *);
    329.6300048828125   (* E4, 329.63 *);
    349.230010986328125 (* F4, 349.23 *);
    392.00              (* G4 *);
    440.00              (* A4 *);
    493.8800048828125   (* B4, 493.88 *);
    523.25              (* C5 *) ].

(** [pitches[k]]; a read outside the array has no defined value. *)
Definition pitches_at (k : Z) : option R :=
  if (k <? 0)%Z then None else nth_error pitches (Z.to_nat k).

(** AUDIO wavedata/userdata struct. *)
Record wavedata : Type := mkWavedata {
  carrier_phase : R;
  modulator_phase : R;
  modulator_amplitude : R;
  pitchindex : Z;
  modulator_pitch : Z
}.

(** The globals [quit], [instr], [colorblind], [mute] and the
    [my_wavedata] of [main] that both functions receive by pointer. *)
Record state : Type := mkState {
  quit : Z;
  instr : R;
  colorblind : Z;
  mute : Z;
  my_wavedata : wavedata
}.

Definition set_wavedata (st : state) (w : wavedata) : state :=
  mkState (quit st) (instr st) (colorblind st) (mute st) w.

(** The right-hand side of the assignment to [dest[i]]. *)
Definition sample_value
    (m_amplitude m_pitch m_phase c_pitch c_phase : R) (i : nat) : R :=
  sin (m_amplitude * sin (m_pitch * TAU * INR i / 48000 + m_phase)
       + c_pitch * TAU * INR i / 48000 + c_phase) * 32767.

(** [for (int i=0; i<size; i++) dest[i] = ...]: the [size] shorts
    written, in index order. *)
Definition fill_buffer (f : nat -> R) (size : nat) : list Z :=
  map (fun i => double_to_short (f i)) (seq 0 size).

(** The audio callback.  [len] is the length of the stream in bytes, as
    SDL passes it.  The result is the buffer written through [stream]
    and the state after the call; [None] when [pitches] is read out of
    bounds. *)
Definition generateWaveform (st : state) (len : nat)
    : option (list Z * state) :=
  let size := (len / sizeof_short)%nat in
  let wave_data := my_wavedata st in
  match pitches_at (pitchindex wave_data) with
  | None => None
  | Some c_pitch =>
      let c_phase := carrier_phase wave_data in
      let m_pitch := instr st * c_pitch in
      let m_phase := modulator_phase wave_data in
      let m_amplitude := modulator_amplitude wave_data in
      let dest :=
        fill_buffer
          (sample_value m_amplitude m_pitch m_phase c_pitch c_phase) size in
      let wave_data' :=
        mkWavedata
          (fmod (c_pitch * TAU * INR size / 48000 + c_phase) TAU)
          (fmod (m_pitch * TAU * INR size / 48000 + m_phase) TAU)
          (modulator_amplitude wave_data)
          (pitchindex wave_data)
          (modulator_pitch wave_data) in
      Some (dest, set_wavedata st wave_data')
  end.

(** [createWant] fills the requested audio format and every field of
    the wavedata. *)
Definition createWant (st : state) : AudioSpec * state :=
  (mkAudioSpec 48000 AUDIO_S16SYS 1 800,
   set_wavedata st
     (mkWavedata 0.0 0.0 0.4 0 (double_to_int (instr st * 440)))).

Definition updateWavedata (userdata : wavedata) (newPitch : Z) : wavedata :=
  mkWavedata (carrier_phase userdata) (modulator_phase userdata)
             (modulator_amplitude userdata) newPitch
             (modulator_pitch userdata).

(** The key handler; the [printf] of the two pitch branches is left
    out. *)
Definition checkKey (key : Keycode) (st : state) : state :=
  let pitchindex := pitchindex (my_wavedata st) in
  if ((key =? SDLK_ESCAPE) || (key =? SDLK_q))%Z then
    mkState 1 (instr st) (colorblind st) (mute st) (my_wavedata st)
  else if ((key =? SDLK_UP) && (pitchindex <? 7))%Z then
    set_wavedata st (updateWavedata (my_wavedata st) (int_add pitchindex 1))
  else if ((key =? SDLK_DOWN) && (pitchindex >? 0))%Z then
    set_wavedata st (updateWavedata (my_wavedata st) (int_sub pitchindex 1))
  else if (key =? SDLK_BACKSPACE)%Z then
    mkState (quit st) (instr st) (int_mod (int_add (colorblind st) 1) 2)
            (mute st) (my_wavedata st)
  else if (key =? SDLK_i)%Z then
    mkState (quit st)
            (if Req_dec_T (instr st) PIANO then GUITAR else PIANO)
            (colorblind st) (mute st)
            (updateWavedata (my_wavedata st) pitchindex)
  else if (key =? SDLK_m)%Z then
    mkState (quit st) (instr st) (colorblind st)
            (int_mod (int_add (mute st) 1) 2) (my_wavedata st)
  else st.

(** The state [main] starts from: the initialisers of the globals, and
    the wavedata after [createWant]. *)
Definition startup (uninitialised : wavedata) : state :=
  snd (createWant (mkState 0 PIANO 0 0 uninitialised)).

Definition initial_state : state := startup (mkWavedata 0 0 0 0 0).

(** What the two contexts of [main] do to the state: the event loop
    handles a key, the audio device asks for [len] bytes. *)
Inductive event : Type :=
| KeyDown (key : Keycode)
| Render (len : nat).

Definition step (st : state) (e : event) : option state :=
  match e with
  | KeyDown key => Some (checkKey key st)
  | Render len => option_map snd (generateWaveform st len)
  end.

Fixpoint run (st : state) (es : list event) : option state :=
  match es with
  | [] => Some st
  | e :: es' =>
      match step st e with
      | Some st' => run st' es'
      | None => None
      end
  end.

End ThereminGame.

(** ** sdltest.c *)

Module SdlTest.

Record wavedata : Type := mkWavedata {
  carrier_phase : R;
  modulator_phase : R;
  modulator_amplitude : R;
  carrier_pitch : Z;
  modulator_pitch : Z
}.

Definition sample_value
    (modulator_amplitude : R) (modulator_pitch : Z) (modulator_phase : R)
    (carrier_pitch : Z) (carrier_phase : R) (i : nat) : R :=
  sin (modulator_amplitude
         * sin (IZR modulator_pitch * (2 * PI) * INR i / 48000
                + modulator_phase)
       + IZR carrier_pitch * (2 * PI) * INR i / 48000 + carrier_phase).

(** The callback of the test program: [float] samples, no scaling, and
    the envelope on the modulator amplitude.  A sample is the value of
    the expression; its rounding by the store into [float *dest] is left
    out. *)
Definition generateWaveform (wave_data : wavedata) (len : nat)
    : list R * wavedata :=
  let size := (len / sizeof_float)%nat in
  let carrier_pitch := carrier_pitch wave_data in
  let carrier_phase := carrier_phase wave_data in
  let modulator_pitch := modulator_pitch wave_data in
  let modulator_phase := modulator_phase wave_data in
  let modulator_amplitude := modulator_amplitude wave_data in
  let dest :=
    map (sample_value modulator_amplitude modulator_pitch modulator_phase
                      carrier_pitch carrier_phase)
        (seq 0 size) in
  (dest,
   mkWavedata
     (fmod (IZR carrier_pitch * (2 * PI) * INR size / 48000 + carrier_phase)
           (2 * PI))
     (fmod (IZR modulator_pitch * (2 * PI) * INR size / 48000
            + modulator_phase)
           (2 * PI))
     (if Rlt_dec 0 modulator_amplitude
      then modulator_amplitude - 0.0066666666
      else 0.4)
     carrier_pitch
     modulator_pitch).

(** The wavedata set up by [main]. *)
Definition initial_wavedata : wavedata := mkWavedata 0.0 0.0 0.4 1000 500.

(** [n] successive calls of the callback with buffers of [len] bytes. *)
Fixpoint render_calls (n : nat) (len : nat) (w : wavedata) : wavedata :=
  match n with
  | O => w
  | S n' => render_calls n' len (snd (generateWaveform w len))
  end.

End SdlTest.

(** ** Vocabulary of the specification *)

Module Spec.

Import ThereminGame.

(** The number of scale entries, the N of the specification. *)
Definition scale_length : Z := Z.of_nat (length pitches).

Definition pitch_in_range (st : state) : Prop :=
  (0 <= pitchindex (my_wavedata st) < scale_length)%Z.

(** carrierPitch = pitches[pitchIndex]. *)
Definition carrierPitch (st : state) : R :=
  nth (Z.to_nat (pitchindex (my_wavedata st))) pitches 0.

(** modulatorPitch = instrumentRatio x carrierPitch. *)
Definition modulatorPitch (st : state) : R := instr st * carrierPitch st.

(** The sample formula as the specification writes it. *)
Definition spec_sample (amplitudeScale : R) (st : state) (i : nat) : R :=
  amplitudeScale
  * sin (modulator_amplitude (my_wavedata st)
           * sin (2 * PI * modulatorPitch st * INR i / 48000
                  + modulator_phase (my_wavedata st))
         + 2 * PI * carrierPitch st * INR i / 48000
         + carrier_phase (my_wavedata st)).

(** [x mod y] of the specification: the representative of [x] in
    [[0, y)]. *)
Definition Rmod (x y : R) : R := x - IZR (Int_part (x / y)) * y.

Definition phase_in_range (p : R) : Prop := 0 <= p < 2 * PI.

Definition phases_in_range (st : state) : Prop :=
  phase_in_range (carrier_phase (my_wavedata st)) /\
  phase_in_range (modulator_phase (my_wavedata st)).

Definition is_flag (z : Z) : Prop := z = 0%Z \/ z = 1%Z.

Definition is_preset (r : R) : Prop := r = PIANO \/ r = GUITAR.

(** The invariants of the data model, section 3 of the specification. *)
Record well_formed (st : state) : Prop := mkWellFormed {
  wf_pitch : pitch_in_range st;
  wf_phases : phases_in_range st;
  wf_instr : is_preset (instr st);
  wf_mute : is_flag (mute st);
  wf_colorblind : is_flag (colorblind st)
}.

(** The byte length of a stream of [S] signed 16-bit samples. *)
Definition stream_bytes (S : nat) : nat := (S * sizeof_short)%nat.

(** The states [main] can be in: the start state, and what the key
    handler and the audio callback make of a reachable state. *)
Inductive reachable : state -> Prop :=
| reach_start : reachable initial_state
| reach_key (st : state) (key : Keycode) :
    reachable st -> reachable (checkKey key st)
| reach_render (st st' : state) (len : nat) (buf : list Z) :
    reachable st -> generateWaveform st len = Some (buf, st') ->
    reachable st'.

End Spec.

(** ** theremingame.c: the display and the loop of [main] *)

Module GameLoop.

Import ThereminGame.

Definition WIDTH : Z := 1024.
Definition HEIGHT : Z := 768.

Definition pitchNames : list string :=
[ "C4"%string; "D4"%string; "E4"%string; "F4"%string;
  "G4"%string; "A4"%string; "B4"%string; "C5"%string ].

(** [pitchNames[k]]; undefined outside the array, as [pitches[k]] is. *)
Definition pitchNames_at (k : Z) : option string :=
if (k <? 0)%Z then None else nth_error pitchNames (Z.to_nat k).

Record SDL_Rect : Type := mkRect { x : Z; y : Z; w : Z; h : Z }.

Record SDL_Color : Type := mkColor { r : Z; g : Z; b : Z; a : Z }.

(** The calls into SDL that draw a frame, in the order [main] makes
    them.  [RenderText] stands for [TTF_RenderText_Solid],
    [SDL_CreateTextureFromSurface] and the [SDL_RenderCopy] of the
    texture. *)
Inductive sdl_call : Type :=
| SetRenderDrawColor (red green blue alpha : Z)
| RenderClear
| RenderDrawLine (x1 y1 x2 y2 : Z)
| RenderFillRect (rect : SDL_Rect)
| RenderText (text : string) (color : SDL_Color) (dst : SDL_Rect)
| RenderPresent
| PauseAudioDevice (pause_on : Z).

(** The rectangle [r] of [drawNoteRectangle]. *)
Definition note_rect (index : Z) : SDL_Rect :=
mkRect (int_add (int_wrap (index * 50)) 50)
       (double_to_int (5.0 / 6.0 * IZR HEIGHT))
       50 50.

Definition drawNoteRectangle (index : Z) : list sdl_call :=
[ SetRenderDrawColor 0 0 255 255; RenderFillRect (note_rect index) ].

Definition normalFontColor : SDL_Color := mkColor 50 170 255 0.
Definition cbFontColor : SDL_Color := mkColor 54 79 60 0.

(** The part of the loop body of [main] after the events are polled:
    texts, background, line, note rectangle, present, pause.  [None] when
    [pitchNames] is read out of bounds. *)
Definition draw_frame (st : state) : option (list sdl_call) :=
let fontColor :=
  if (colorblind st =? 0)%Z then normalFontColor else cbFontColor in
let message :=
  if (colorblind st =? 0)%Z
  then "Theremin Hero!"%string else "Colorblind Mode ;D"%string in
match pitchNames_at (pitchindex (my_wavedata st)) with
| None => None
| Some noteName =>
    Some ([ SetRenderDrawColor 170 200 215 255 ]
          ++ (if (colorblind st =? 0)%Z
              then [] else [ SetRenderDrawColor 79 54 58 255 ])
          ++ [ RenderClear;
               SetRenderDrawColor 54 79 60 255;
               RenderDrawLine 5 5 340 340;
               RenderText message fontColor (mkRect 150 200 200 80);
               RenderText noteName fontColor (mkRect 210 350 100 50) ]
          ++ drawNoteRectangle (pitchindex (my_wavedata st))
          ++ [ RenderPresent; PauseAudioDevice (mute st) ])
end.

(** The events [main] tells apart. *)
Inductive SDL_Event : Type :=
| SDL_KEYDOWN (key : Keycode)
| SDL_QUIT
| SDL_OTHER.

(** One turn of the [switch] on [event.type]. *)
Definition handle_event (st : state) (e : SDL_Event) : state :=
match e with
| SDL_KEYDOWN key => checkKey key st
| SDL_QUIT => mkState 1 (instr st) (colorblind st) (mute st) (my_wavedata st)
| SDL_OTHER => st
end.

(** [while (SDL_PollEvent(&event))] over the events that are pending. *)
Definition poll_events (pending : list SDL_Event) (st : state) : state :=
fold_left handle_event pending st.

(** [while (!quit)]: each turn polls the events pending at that time and
    draws a frame.  [frames] lists the pending events turn by turn; the
    loop is followed for as long as the list lasts.  The call of
    [readFromTheremin], a dummy without arguments declared in
    [theremin.h], is left out. *)
Fixpoint game_loop (frames : list (list SDL_Event)) (st : state)
  : option (list (list sdl_call) * state) :=
match frames with
| [] => Some ([], st)
| pending :: later =>
    if (quit st =? 0)%Z then
      let st1 := poll_events pending st in
      match draw_frame st1 with
      | None => None
      | Some calls =>
          match game_loop later st1 with
          | None => None
          | Some (drawn, st') => Some (calls :: drawn, st')
          end
      end
    else Some ([], st)
end.

(** An event that makes [main] leave its loop. *)
Definition quits (e : SDL_Event) : Prop :=
e = SDL_QUIT \/ e = SDL_KEYDOWN SDLK_ESCAPE \/ e = SDL_KEYDOWN SDLK_q.

End GameLoop.

(** * Properties *)

Import ThereminGame Spec.

(** ** Truncation and [fmod] *)

Section Truncation.

Lemma Rtrunc_nonneg (x : R) : 0 <= x -> Rtrunc x = Int_part x.
Proof.
  intros Hx. unfold Rtrunc. destruct (Rle_dec 0 x); [reflexivity | tauto].
Qed.

Lemma Rtrunc_neg (x : R) : x < 0 -> Rtrunc x = (- Int_part (- x))%Z.
Proof.
  intros Hx. unfold Rtrunc. destruct (Rle_dec 0 x); [lra | reflexivity].
Qed.

Lemma Int_part_bounds (x : R) :
  IZR (Int_part x) <= x < IZR (Int_part x) + 1.
Proof. destruct (base_Int_part x). lra. Qed.

Lemma Int_part_unique (x : R) (z : Z) :
  IZR z <= x < IZR z + 1 -> Int_part x = z.
Proof. intros H. symmetry. apply Int_part_spec. lra. Qed.

Lemma Rtrunc_IZR (z : Z) : Rtrunc (IZR z) = z.
Proof.
  destruct (Rle_dec 0 (IZR z)) as [H | H].
  - rewrite Rtrunc_nonneg by assumption. apply Int_part_unique. lra.
  - rewrite Rtrunc_neg by lra. rewrite <- opp_IZR.
    rewrite (Int_part_unique (IZR (- z)) (- z)) by lra. lia.
Qed.

(** Truncation never moves a value across an integer bound. *)
Lemma Rtrunc_between (x : R) (lo hi : Z) :
  (lo <= 0 <= hi)%Z -> IZR lo <= x <= IZR hi ->
  (lo <= Rtrunc x <= hi)%Z.
Proof.
  intros [Hlo Hhi] [Hl Hh].
  apply IZR_le in Hlo, Hhi.
  destruct (Rle_dec 0 x) as [H | H].
  - rewrite Rtrunc_nonneg by assumption.
    pose proof (Int_part_bounds x) as [B1 B2].
    split.
    + assert (IZR (-1) < IZR (Int_part x)) as L by (simpl; lra).
      apply lt_IZR in L. apply le_IZR in Hlo. lia.
    + apply le_IZR. lra.
  - rewrite Rtrunc_neg by lra.
    pose proof (Int_part_bounds (- x)) as [B1 B2].
    split.
    + assert (IZR (Int_part (- x)) <= IZR (- lo)) as L
        by (rewrite opp_IZR; lra).
      apply le_IZR in L. lia.
    + assert (IZR (-1) < IZR (Int_part (- x))) as L by (simpl; lra).
      apply lt_IZR in L. apply le_IZR in Hhi. lia.
Qed.

(** The distance between a value and its truncation is below one. *)
Lemma Rtrunc_error (x : R) : Rabs (x - IZR (Rtrunc x)) < 1.
Proof.
  destruct (Rle_dec 0 x) as [H | H].
  - rewrite Rtrunc_nonneg by assumption.
    pose proof (Int_part_bounds x). apply Rabs_def1; lra.
  - rewrite Rtrunc_neg by lra. rewrite opp_IZR.
    pose proof (Int_part_bounds (- x)). apply Rabs_def1; lra.
Qed.

Lemma Rdiv_nonneg (x y : R) : 0 <= x -> 0 < y -> 0 <= x / y.
Proof.
  intros Hx Hy. unfold Rdiv. apply Rmult_le_pos; [assumption |].
  left. apply Rinv_0_lt_compat. assumption.
Qed.

(** On a non-negative dividend [fmod] is the remainder in [[0, y)]. *)
Lemma fmod_range (x y : R) : 0 <= x -> 0 < y -> 0 <= fmod x y < y.
Proof.
  intros Hx Hy. unfold fmod.
  assert (0 <= x / y) as Hq by (apply Rdiv_nonneg; assumption).
  rewrite Rtrunc_nonneg by assumption.
  pose proof (Int_part_bounds (x / y)) as [B1 B2].
  assert (x = x / y * y) as E by (field; lra).
  split.
  - apply (Rmult_le_compat_r y) in B1; lra.
  - apply (Rmult_lt_compat_r y) in B2; lra.
Qed.

Lemma fmod_small (x y : R) : 0 <= x < y -> fmod x y = x.
Proof.
  intros [Hx Hy]. unfold fmod.
  assert (0 <= x / y) as Hq by (apply Rdiv_nonneg; lra).
  rewrite Rtrunc_nonneg by assumption.
  rewrite (Int_part_unique (x / y) 0).
  - simpl. ring.
  - simpl. split; [lra |].
    apply (Rmult_lt_reg_r y); [lra |].
    unfold Rdiv. rewrite Rmult_assoc, Rinv_l by lra. lra.
Qed.

End Truncation.

(** ** Bounds on [PI] and on [sin 0.4] *)

Section Periodicity.

Lemma PI_gt_2 : 2 < PI.
Proof. pose proof PI2_1. lra. Qed.

Lemma TAU_pos : 0 < TAU.
Proof. unfold TAU. pose proof PI_gt_2. lra. Qed.

Lemma sin_04_bounds : 12760 / 32767 <= sin 0.4 < 12761 / 32767.
Proof.
  assert (0 <= 0.4) as H0 by lra.
  assert (0.4 <= PI) as H1 by (pose proof PI_gt_2; lra).
  destruct (SIN 0.4 H0 H1) as [L U].
  unfold sin_lb, sin_ub, sin_approx, sin_term in L, U.
  cbn [sum_f_R0 Nat.mul Nat.add] in L, U.
  repeat rewrite fact_simpl in L. repeat rewrite fact_simpl in U.
  repeat rewrite mult_INR in L. repeat rewrite mult_INR in U.
  cbn [fact INR pow] in L, U.
  split; lra.
Qed.

(** What [sin 0.4] becomes in the signed 16-bit encoding. *)
Lemma sin_04_as_short : double_to_short (32767 * sin 0.4) = 12760%Z.
Proof.
  pose proof sin_04_bounds as [L U].
  unfold double_to_short. rewrite Rtrunc_nonneg by lra.
  apply Int_part_unique. lra.
Qed.

End Periodicity.

(** ** The scale table *)

Section Scale.

Lemma scale_length_is_8 : scale_length = 8%Z.
Proof. reflexivity. Qed.

Lemma pitches_at_in_range (k : Z) :
  (0 <= k < scale_length)%Z ->
  pitches_at k = Some (nth (Z.to_nat k) pitches 0).
Proof.
  intros Hk. rewrite scale_length_is_8 in Hk. unfold pitches_at.
  destruct (Z.ltb_spec k 0) as [Hneg | _]; [lia |].
  apply nth_error_nth'. change (length pitches) with 8%nat. lia.
Qed.

Lemma pitches_at_Some (k : Z) (p : R) :
  pitches_at k = Some p ->
  (0 <= k < scale_length)%Z /\ p = nth (Z.to_nat k) pitches 0.
Proof.
  unfold pitches_at. destruct (Z.ltb_spec k 0) as [Hneg | Hk];
    [discriminate |].
  intros E.
  assert (Z.to_nat k < length pitches)%nat as Hlt
    by (apply nth_error_Some; congruence).
  split.
  - unfold scale_length. lia.
  - rewrite (nth_error_nth' pitches 0 Hlt) in E. congruence.
Qed.

Lemma pitches_positive (p : R) : In p pitches -> 0 < p.
Proof.
  unfold pitches. simpl. intros H.
  repeat (destruct H as [H | H]; [subst p; lra |]). contradiction.
Qed.

Lemma carrierPitch_positive (st : state) :
  pitch_in_range st -> 0 < carrierPitch st.
Proof.
  intros H. apply pitches_positive. unfold carrierPitch.
  apply nth_In. unfold pitch_in_range, scale_length in H. lia.
Qed.

End Scale.

(** ** The render callback *)

Section Render.

Lemma fill_buffer_length (f : nat -> R) (size : nat) :
  length (fill_buffer f size) = size.
Proof. unfold fill_buffer. rewrite length_map, length_seq. reflexivity. Qed.

Lemma fill_buffer_nth (f : nat -> R) (size i : nat) :
  (i < size)%nat ->
  nth_error (fill_buffer f size) i = Some (double_to_short (f i)).
Proof.
  intros Hi. unfold fill_buffer.
  rewrite nth_error_map, nth_error_seq.
  destruct (Nat.ltb_spec i size) as [_ | Hge]; [reflexivity | lia].
Qed.

Lemma sample_value_formula
    (m_amplitude m_pitch m_phase c_pitch c_phase : R) (i : nat) :
  sample_value m_amplitude m_pitch m_phase c_pitch c_phase i
  = 32767 * sin (m_amplitude
                   * sin (2 * PI * m_pitch * INR i / 48000 + m_phase)
                 + 2 * PI * c_pitch * INR i / 48000 + c_phase).
Proof.
  unfold sample_value, TAU.
  replace (m_pitch * (2 * PI) * INR i / 48000)
    with (2 * PI * m_pitch * INR i / 48000) by field.
  replace (c_pitch * (2 * PI) * INR i / 48000)
    with (2 * PI * c_pitch * INR i / 48000) by field.
  apply Rmult_comm.
Qed.

(** The code's expression for a sample is the formula of the
    specification with the amplitude scale 32767. *)
Lemma sample_value_spec (st : state) (i : nat) :
  sample_value (modulator_amplitude (my_wavedata st))
               (instr st * carrierPitch st)
               (modulator_phase (my_wavedata st))
               (carrierPitch st)
               (carrier_phase (my_wavedata st)) i
  = spec_sample 32767 st i.
Proof.
  rewrite sample_value_formula. reflexivity.
Qed.

(** With the pitch index inside the table the callback returns, and its
    result is the one below. *)
Lemma generateWaveform_defined (st : state) (len : nat) :
  pitch_in_range st ->
  generateWaveform st len =
    Some (fill_buffer
            (sample_value (modulator_amplitude (my_wavedata st))
                          (instr st * carrierPitch st)
                          (modulator_phase (my_wavedata st))
                          (carrierPitch st)
                          (carrier_phase (my_wavedata st)))
            (len / sizeof_short),
          set_wavedata st
            (mkWavedata
               (fmod (carrierPitch st * TAU * INR (len / sizeof_short) / 48000
                      + carrier_phase (my_wavedata st)) TAU)
               (fmod (instr st * carrierPitch st * TAU
                        * INR (len / sizeof_short) / 48000
                      + modulator_phase (my_wavedata st)) TAU)
               (modulator_amplitude (my_wavedata st))
               (pitchindex (my_wavedata st))
               (modulator_pitch (my_wavedata st)))).
Proof.
  intros H. unfold generateWaveform.
  rewrite (pitches_at_in_range _ H). reflexivity.
Qed.

(** Outside the table the read of [pitches] is undefined, and only
    there. *)
Lemma generateWaveform_None (st : state) (len : nat) :
  generateWaveform st len = None <-> ~ pitch_in_range st.
Proof.
  split.
  - intros E H. rewrite (generateWaveform_defined st len H) in E. discriminate.
  - intros H. unfold generateWaveform.
    destruct (pitches_at (pitchindex (my_wavedata st))) as [p |] eqn:E;
      [| reflexivity].
    apply pitches_at_Some in E. destruct E as [E _]. contradiction.
Qed.

Lemma generateWaveform_Some (st st' : state) (len : nat) (buf : list Z) :
  generateWaveform st len = Some (buf, st') -> pitch_in_range st.
Proof.
  unfold generateWaveform.
  destruct (pitches_at (pitchindex (my_wavedata st))) as [p |] eqn:E;
    [| discriminate].
  intros _. apply pitches_at_Some in E. apply E.
Qed.

Lemma initial_state_eq :
  initial_state = mkState 0 PIANO 0 0 (mkWavedata 0 0 0.4 0 880).
Proof.
  unfold initial_state, startup, createWant, set_wavedata. simpl.
  f_equal. f_equal.
  - lra.
  - lra.
  - unfold double_to_int, PIANO. replace (2 * 440) with (IZR 880) by lra.
    apply Rtrunc_IZR.
Qed.

Lemma startup_irrelevant (w : wavedata) : startup w = initial_state.
Proof. reflexivity. Qed.

Lemma initial_pitch_in_range : pitch_in_range initial_state.
Proof. rewrite initial_state_eq. unfold pitch_in_range. rewrite scale_length_is_8. simpl. lia. Qed.

End Render.

(** ** The samples of one buffer *)

Section Samples.

(** With both phases at zero the waveform starts at a zero crossing,
    whatever the modulation depth. *)
Lemma sample_value_origin (m_amplitude m_pitch c_pitch : R) :
  sample_value m_amplitude m_pitch 0 c_pitch 0 0 = 0.
Proof.
  unfold sample_value. simpl INR.
  replace (m_pitch * TAU * 0 / 48000 + 0) with 0 by field.
  rewrite sin_0.
  replace (m_amplitude * 0 + c_pitch * TAU * 0 / 48000 + 0) with 0 by field.
  rewrite sin_0. ring.
Qed.

(** At index 0 only the phases are left of the two arguments. *)
Lemma spec_sample_first (amplitudeScale : R) (st : state) :
  spec_sample amplitudeScale st 0
  = amplitudeScale
    * sin (modulator_amplitude (my_wavedata st)
             * sin (modulator_phase (my_wavedata st))
           + carrier_phase (my_wavedata st)).
Proof.
  unfold spec_sample, Rdiv. simpl INR.
  rewrite !Rmult_0_r, !Rmult_0_l, Rplus_0_l, Rplus_0_r. reflexivity.
Qed.

Lemma first_sample_from_start :
  exists buf st',
    generateWaveform initial_state (stream_bytes 800) = Some (buf, st') /\
    nth_error buf 0 = Some 0%Z.
Proof.
  rewrite (generateWaveform_defined _ (stream_bytes 800)
             initial_pitch_in_range).
  eexists. eexists. split; [reflexivity |].
  rewrite fill_buffer_nth.
  - rewrite initial_state_eq. cbn [my_wavedata modulator_phase carrier_phase].
    rewrite sample_value_origin. f_equal. apply (Rtrunc_IZR 0).
  - unfold stream_bytes. rewrite Nat.div_mul by discriminate. lia.
Qed.

(** C1, as amended.  On a state whose pitch index is inside the scale
    table, [generateWaveform] returns [len / 2] samples, and sample [i] is
    the formula of the specification, [32767 * sin (modulatorAmplitude *
    sin (2 PI modulatorPitch i / 48000 + modulatorPhase) + 2 PI
    carrierPitch i / 48000 + carrierPhase)] with [carrierPitch =
    pitches[pitchIndex]] and [modulatorPitch = instrumentRatio *
    carrierPitch], converted to a signed 16-bit integer (less than one
    unit away from the formula).  From the start
    state the first sample of an 800-sample buffer is 0, the encoding of
    [sin (0.4 * sin 0 + 0) = sin 0]. *)
Theorem generateWaveform_samples (st : state) (len : nat) :
  pitch_in_range st ->
  (exists buf st',
     generateWaveform st len = Some (buf, st') /\
     length buf = (len / sizeof_short)%nat /\
     forall i, (i < len / sizeof_short)%nat ->
       nth_error buf i = Some (double_to_short (spec_sample 32767 st i)) /\
       Rabs (spec_sample 32767 st i
             - IZR (double_to_short (spec_sample 32767 st i))) < 1)
  /\
  (exists buf0 st0,
     generateWaveform initial_state (stream_bytes 800) = Some (buf0, st0) /\
     length buf0 = 800%nat /\
     nth_error buf0 0 = Some 0%Z /\
     spec_sample 32767 initial_state 0 = 32767 * sin (0.4 * sin 0 + 0) /\
     double_to_short (32767 * sin (0.4 * sin 0 + 0)) = 0%Z).
Proof.
  intros Hin. split.
  - rewrite (generateWaveform_defined st len Hin).
    eexists. eexists. split; [reflexivity |]. split.
    + apply fill_buffer_length.
    + intros i Hi. rewrite fill_buffer_nth by assumption.
      rewrite sample_value_spec. split; [reflexivity |].
      apply Rtrunc_error.
  - destruct first_sample_from_start as (buf0 & st0 & E & H0).
    exists buf0, st0. split; [assumption |]. split; [| split; [assumption |]].
    + rewrite (generateWaveform_defined _ _ initial_pitch_in_range) in E.
      injection E as <- _. rewrite fill_buffer_length. reflexivity.
    + split.
      * rewrite spec_sample_first, initial_state_eq. reflexivity.
      * rewrite sin_0. replace (32767 * sin (0.4 * 0 + 0)) with (IZR 0).
        -- apply Rtrunc_IZR.
        -- replace (0.4 * 0 + 0) with 0 by ring. rewrite sin_0. ring.
Qed.

Lemma generateWaveform_samples_witness :
  pitch_in_range initial_state /\
  exists buf st',
    generateWaveform initial_state 1600 = Some (buf, st') /\
    length buf = (1600 / sizeof_short)%nat /\
    forall i, (i < 1600 / sizeof_short)%nat ->
      nth_error buf i
      = Some (double_to_short (spec_sample 32767 initial_state i)) /\
      Rabs (spec_sample 32767 initial_state i
            - IZR (double_to_short (spec_sample 32767 initial_state i))) < 1.
Proof.
  split.
  - exact initial_pitch_in_range.
  - apply (generateWaveform_samples initial_state 1600).
    exact initial_pitch_in_range.
Defined.

(** C1 as written fails on its end-to-end scenario: the first sample from
    the start state is 0, while [sin 0.4] in the 16-bit encoding is
    12760. *)
Lemma first_sample_is_not_sin_04 :
  exists buf st',
    generateWaveform initial_state (stream_bytes 800) = Some (buf, st') /\
    nth_error buf 0 = Some 0%Z /\
    nth_error buf 0 <> Some (double_to_short (32767 * sin 0.4)) /\
    IZR 0 <> 32767 * sin 0.4.
Proof.
  destruct first_sample_from_start as (buf & st' & E & H0).
  exists buf, st'. split; [assumption |]. split; [assumption |]. split.
  - rewrite H0, sin_04_as_short. discriminate.
  - pose proof sin_04_bounds. lra.
Qed.

End Samples.

(** ** The key handler *)

(** Case analysis on the chain of tests of [checkKey]. *)
Ltac checkKey_cases :=
  unfold checkKey;
  repeat match goal with
         | |- context [if ?b then _ else _] =>
             lazymatch b with
             | Req_dec_T _ _ => fail
             | _ => destruct b eqn:?
             end
         end.

Section KeyHandler.

(** The additions of [checkKey] stay far from the 32-bit bounds. *)
Lemma int_wrap_small (z : Z) :
  (- 2 ^ 31 <= z < 2 ^ 31)%Z -> int_wrap z = z.
Proof.
  intros H. unfold int_wrap. rewrite Z.mod_small by lia. lia.
Qed.

(** What each key does. *)
Lemma checkKey_UP (st : state) :
  checkKey SDLK_UP st =
    if (pitchindex (my_wavedata st) <? 7)%Z
    then set_wavedata st
           (updateWavedata (my_wavedata st)
                           (int_add (pitchindex (my_wavedata st)) 1))
    else st.
Proof. reflexivity. Qed.

Lemma checkKey_DOWN (st : state) :
  checkKey SDLK_DOWN st =
    if (pitchindex (my_wavedata st) >? 0)%Z
    then set_wavedata st
           (updateWavedata (my_wavedata st)
                           (int_sub (pitchindex (my_wavedata st)) 1))
    else st.
Proof. reflexivity. Qed.

Lemma checkKey_BACKSPACE (st : state) :
  checkKey SDLK_BACKSPACE st =
    mkState (quit st) (instr st) (int_mod (int_add (colorblind st) 1) 2)
            (mute st) (my_wavedata st).
Proof. reflexivity. Qed.

Lemma checkKey_i (st : state) :
  checkKey SDLK_i st =
    mkState (quit st)
            (if Req_dec_T (instr st) PIANO then GUITAR else PIANO)
            (colorblind st) (mute st)
            (updateWavedata (my_wavedata st) (pitchindex (my_wavedata st))).
Proof. reflexivity. Qed.

Lemma checkKey_m (st : state) :
  checkKey SDLK_m st =
    mkState (quit st) (instr st) (colorblind st)
            (int_mod (int_add (mute st) 1) 2) (my_wavedata st).
Proof. reflexivity. Qed.

Lemma checkKey_quit (key : Keycode) (st : state) :
  key = SDLK_ESCAPE \/ key = SDLK_q ->
  checkKey key st =
    mkState 1 (instr st) (colorblind st) (mute st) (my_wavedata st).
Proof. intros [-> | ->]; reflexivity. Qed.

Lemma updateWavedata_same (w : wavedata) :
  updateWavedata w (pitchindex w) = w.
Proof. destruct w. reflexivity. Qed.

Lemma state_eta (st : state) :
  mkState (quit st) (instr st) (colorblind st) (mute st) (my_wavedata st)
  = st.
Proof. destruct st. reflexivity. Qed.

(** No key touches the fields of the render context. *)
Lemma checkKey_render_fields (key : Keycode) (st : state) :
  carrier_phase (my_wavedata (checkKey key st))
    = carrier_phase (my_wavedata st) /\
  modulator_phase (my_wavedata (checkKey key st))
    = modulator_phase (my_wavedata st) /\
  modulator_amplitude (my_wavedata (checkKey key st))
    = modulator_amplitude (my_wavedata st) /\
  modulator_pitch (my_wavedata (checkKey key st))
    = modulator_pitch (my_wavedata st).
Proof. checkKey_cases; repeat split; reflexivity. Qed.

(** The pitch index moves by at most one note and never leaves the
    table. *)
Lemma checkKey_pitch_in_range (key : Keycode) (st : state) :
  pitch_in_range st -> pitch_in_range (checkKey key st).
Proof.
  unfold pitch_in_range. rewrite scale_length_is_8. intros H.
  checkKey_cases; simpl; try assumption.
  - unfold int_add. rewrite int_wrap_small by lia.
    apply andb_prop in Heqb0. destruct Heqb0 as [_ Hlt].
    apply Z.ltb_lt in Hlt. lia.
  - unfold int_sub. rewrite int_wrap_small by lia.
    apply andb_prop in Heqb1. destruct Heqb1 as [_ Hgt].
    apply Z.gtb_lt in Hgt. lia.
Qed.

Lemma toggle_flag (f : Z) : is_flag f -> is_flag (int_mod (int_add f 1) 2).
Proof. intros [-> | ->]; [right | left]; reflexivity. Qed.

Lemma toggle_flag_twice (f : Z) :
  is_flag f -> int_mod (int_add (int_mod (int_add f 1) 2) 1) 2 = f.
Proof. intros [-> | ->]; reflexivity. Qed.

Lemma toggle_instr_preset (r : R) :
  is_preset (if Req_dec_T r PIANO then GUITAR else PIANO).
Proof. destruct (Req_dec_T r PIANO); [right | left]; reflexivity. Qed.

Lemma PIANO_neq_GUITAR : GUITAR <> PIANO.
Proof. unfold GUITAR, PIANO. lra. Qed.

Lemma toggle_instr_twice (r : R) :
  is_preset r ->
  (if Req_dec_T (if Req_dec_T r PIANO then GUITAR else PIANO) PIANO
   then GUITAR else PIANO) = r.
Proof.
  intros [-> | ->].
  - destruct (Req_dec_T PIANO PIANO) as [_ | n]; [| contradiction].
    destruct (Req_dec_T GUITAR PIANO) as [e | _]; [| reflexivity].
    destruct (PIANO_neq_GUITAR e).
  - destruct (Req_dec_T GUITAR PIANO) as [e | _].
    + destruct (PIANO_neq_GUITAR e).
    + destruct (Req_dec_T PIANO PIANO) as [_ | n]; [reflexivity |].
      contradiction.
Qed.

Lemma checkKey_well_formed (key : Keycode) (st : state) :
  well_formed st -> well_formed (checkKey key st).
Proof.
  intros [Hp Hph Hi Hm Hc]. constructor.
  - apply checkKey_pitch_in_range. assumption.
  - destruct (checkKey_render_fields key st) as (Ec & Em & _).
    unfold phases_in_range. rewrite Ec, Em. assumption.
  - checkKey_cases; simpl; try assumption. apply toggle_instr_preset.
  - checkKey_cases; simpl; try assumption. apply toggle_flag. assumption.
  - checkKey_cases; simpl; try assumption. apply toggle_flag. assumption.
Qed.

End KeyHandler.

(** ** Phase update and wraparound *)

Section Phases.

Lemma TAU_eq : TAU = 2 * PI.
Proof. reflexivity. Qed.

(** On non-negative arguments the [fmod] of C is the [mod] of the
    specification. *)
Lemma fmod_Rmod (x y : R) : 0 <= x -> 0 < y -> fmod x y = Rmod x y.
Proof.
  intros Hx Hy. unfold fmod, Rmod.
  rewrite Rtrunc_nonneg by (apply Rdiv_nonneg; assumption). reflexivity.
Qed.

Lemma phase_advance_nonneg (pitch phase : R) (size : nat) :
  0 <= pitch -> 0 <= phase ->
  0 <= pitch * TAU * INR size / 48000 + phase.
Proof.
  intros Hp Hph. pose proof TAU_pos as Ht. pose proof (pos_INR size) as Hs.
  assert (0 <= pitch * TAU * INR size) as Hm.
  { apply Rmult_le_pos; [apply Rmult_le_pos |]; lra. }
  assert (0 <= pitch * TAU * INR size / 48000)
    by (apply Rdiv_nonneg; lra).
  lra.
Qed.

Lemma is_preset_pos (r : R) : is_preset r -> 0 < r.
Proof. unfold is_preset, PIANO, GUITAR. intros [-> | ->]; lra. Qed.

(** One call: the new phases are the old ones advanced by [S] samples
    and reduced into [[0, 2 PI)]. *)
Lemma generateWaveform_phases (st st' : state) (len : nat) (buf : list Z) :
  pitch_in_range st -> 0 <= instr st ->
  0 <= carrier_phase (my_wavedata st) ->
  0 <= modulator_phase (my_wavedata st) ->
  generateWaveform st len = Some (buf, st') ->
  carrier_phase (my_wavedata st')
    = Rmod (carrier_phase (my_wavedata st)
            + 2 * PI * carrierPitch st * INR (len / sizeof_short) / 48000)
           (2 * PI) /\
  modulator_phase (my_wavedata st')
    = Rmod (modulator_phase (my_wavedata st)
            + 2 * PI * modulatorPitch st * INR (len / sizeof_short) / 48000)
           (2 * PI) /\
  phases_in_range st'.
Proof.
  intros Hin Hi Hc Hm E.
  rewrite (generateWaveform_defined st len Hin) in E.
  set (size := (len / sizeof_short)%nat) in *.
  injection E as _ <-. cbn [my_wavedata set_wavedata carrier_phase
                             modulator_phase].
  pose proof (carrierPitch_positive st Hin) as Hcp.
  assert (0 <= instr st * carrierPitch st) as Hmp
    by (apply Rmult_le_pos; lra).
  pose proof (phase_advance_nonneg (carrierPitch st) _
                size (Rlt_le _ _ Hcp) Hc) as Ac.
  pose proof (phase_advance_nonneg (instr st * carrierPitch st) _
                size Hmp Hm) as Am.
  pose proof TAU_pos as Ht.
  split; [| split].
  - rewrite fmod_Rmod by assumption. rewrite TAU_eq. f_equal. field.
  - rewrite fmod_Rmod by assumption. rewrite TAU_eq.
    unfold modulatorPitch. f_equal. field.
  - split; unfold phase_in_range; rewrite <- TAU_eq;
      apply fmod_range; assumption.
Qed.

Lemma generateWaveform_well_formed
    (st st' : state) (len : nat) (buf : list Z) :
  well_formed st -> generateWaveform st len = Some (buf, st') ->
  well_formed st'.
Proof.
  intros [Hp [Hc Hm] Hi Hmu Hcb] E.
  pose proof (is_preset_pos _ Hi) as Hpos.
  destruct (generateWaveform_phases st st' len buf Hp)
    as (_ & _ & Hph); try assumption;
    try (unfold phase_in_range in *; lra).
  rewrite (generateWaveform_defined st len Hp) in E. injection E as _ <-.
  constructor; try assumption.
Qed.

Lemma initial_well_formed : well_formed initial_state.
Proof.
  rewrite initial_state_eq. pose proof PI_gt_2.
  constructor; simpl.
  - unfold pitch_in_range. rewrite scale_length_is_8. simpl. lia.
  - unfold phases_in_range, phase_in_range. simpl. lra.
  - left. reflexivity.
  - left. reflexivity.
  - left. reflexivity.
Qed.

(** Every run of key presses and render calls from a well-formed state
    goes through, and ends in a well-formed state. *)
Lemma run_well_formed (es : list event) :
  forall st, well_formed st ->
    exists st', run st es = Some st' /\ well_formed st'.
Proof.
  induction es as [| e es IH]; intros st Hwf.
  - exists st. split; [reflexivity | assumption].
  - destruct e as [key | len]; simpl.
    + apply IH. apply checkKey_well_formed. assumption.
    + rewrite (generateWaveform_defined st len (wf_pitch st Hwf)). simpl.
      apply IH.
      eapply generateWaveform_well_formed; [exact Hwf |].
      apply (generateWaveform_defined st len (wf_pitch st Hwf)).
Qed.

Lemma reachable_well_formed (st : state) : reachable st -> well_formed st.
Proof.
  induction 1 as [| st key _ IH | st st' len buf _ IH E].
  - exact initial_well_formed.
  - apply checkKey_well_formed. assumption.
  - eapply generateWaveform_well_formed; eassumption.
Qed.

(** C2.  On a well-formed state every call of [generateWaveform] returns,
    fills the buffer from [carrierPitch] and [modulatorPitch], and leaves
    [carrierPhase = (oldCarrierPhase + 2 PI carrierPitch S / 48000) mod
    2 PI] and [modulatorPhase = (oldModulatorPhase + 2 PI modulatorPitch
    S / 48000) mod 2 PI] with the same two pitches; and after any
    sequence of render calls and key presses both phases are in
    [[0, 2 PI)]. *)
Theorem phases_advance_and_wrap
    (st : state) (len : nat) (es : list event) :
  well_formed st ->
  (exists buf st',
     generateWaveform st len = Some (buf, st') /\
     (forall i, (i < len / sizeof_short)%nat ->
        nth_error buf i = Some (double_to_short (spec_sample 32767 st i))) /\
     carrier_phase (my_wavedata st')
       = Rmod (carrier_phase (my_wavedata st)
               + 2 * PI * carrierPitch st * INR (len / sizeof_short) / 48000)
              (2 * PI) /\
     modulator_phase (my_wavedata st')
       = Rmod (modulator_phase (my_wavedata st)
               + 2 * PI * modulatorPitch st * INR (len / sizeof_short)
                 / 48000)
              (2 * PI) /\
     phases_in_range st')
  /\
  (exists st'', run st es = Some st'' /\ phases_in_range st'').
Proof.
  intros Hwf. split.
  - pose proof (generateWaveform_defined st len (wf_pitch st Hwf)) as E.
    destruct Hwf as [Hp [Hc Hm] Hi Hmu Hcb].
    pose proof (is_preset_pos _ Hi) as Hpos.
    eexists. eexists. split; [exact E |]. split.
    + intros i Hi'. rewrite fill_buffer_nth by assumption.
      rewrite sample_value_spec. reflexivity.
    + eapply (generateWaveform_phases st _ len _ Hp); try exact E;
        unfold phase_in_range in *; lra.
  - destruct (run_well_formed es st Hwf) as (st'' & E & Hwf'').
    exists st''. split; [assumption | apply (wf_phases st'' Hwf'')].
Qed.

Lemma phases_advance_and_wrap_witness :
  well_formed initial_state /\
  exists st'',
    run initial_state [Render 1600; KeyDown SDLK_UP; Render 1600]
      = Some st'' /\
    phases_in_range st''.
Proof.
  split.
  - exact initial_well_formed.
  - apply (phases_advance_and_wrap initial_state 1600
             [Render 1600; KeyDown SDLK_UP; Render 1600]).
    exact initial_well_formed.
Defined.

End Phases.

(** ** What a render call keeps *)

Section Continuity.

(** The callback leaves the inputs of the next render as they were,
    phases apart. *)
Lemma generateWaveform_keeps_pitch
    (st st' : state) (len : nat) (buf : list Z) :
  generateWaveform st len = Some (buf, st') ->
  pitchindex (my_wavedata st') = pitchindex (my_wavedata st) /\
  instr st' = instr st /\
  modulator_amplitude (my_wavedata st')
    = modulator_amplitude (my_wavedata st).
Proof.
  unfold generateWaveform.
  destruct (pitches_at (pitchindex (my_wavedata st))); [| discriminate].
  intros E. injection E as _ <-. repeat split.
Qed.

End Continuity.

(** ** Pitch navigation *)

Section PitchClamp.

Lemma generateWaveform_pitch_in_range
    (st st' : state) (len : nat) (buf : list Z) :
  pitch_in_range st -> generateWaveform st len = Some (buf, st') ->
  pitch_in_range st'.
Proof.
  intros H E. unfold pitch_in_range.
  destruct (generateWaveform_keeps_pitch st st' len buf E) as (-> & _).
  exact H.
Qed.

Lemma run_pitch_in_range (es : list event) :
  forall st, pitch_in_range st ->
    exists st', run st es = Some st' /\ pitch_in_range st'.
Proof.
  induction es as [| e es IH]; intros st H.
  - exists st. split; [reflexivity | assumption].
  - destruct e as [key | len]; simpl.
    + apply IH. apply checkKey_pitch_in_range. assumption.
    + pose proof (generateWaveform_defined st len H) as E.
      rewrite E. simpl. apply IH.
      eapply generateWaveform_pitch_in_range; [exact H | exact E].
Qed.

(** C4.  The UP key at [pitchIndex = N - 1 = 7] and the DOWN key at
    [pitchIndex = 0] leave the pitch index as it is; at every other index
    of the scale UP adds one and DOWN subtracts one; and from
    [pitchIndex = 0] every sequence of key presses (and render calls)
    goes through and keeps the pitch index in [[0, N - 1]]. *)
Theorem pitch_clamp (st : state) :
  (scale_length - 1 = 7 /\
  (pitchindex (my_wavedata st) = scale_length - 1 ->
   pitchindex (my_wavedata (checkKey SDLK_UP st))
     = pitchindex (my_wavedata st)) /\
  (pitchindex (my_wavedata st) = 0 ->
   pitchindex (my_wavedata (checkKey SDLK_DOWN st))
     = pitchindex (my_wavedata st)) /\
  (pitch_in_range st -> pitchindex (my_wavedata st) <> scale_length - 1 ->
   pitchindex (my_wavedata (checkKey SDLK_UP st))
     = pitchindex (my_wavedata st) + 1) /\
  (pitch_in_range st -> pitchindex (my_wavedata st) <> 0 ->
   pitchindex (my_wavedata (checkKey SDLK_DOWN st))
     = pitchindex (my_wavedata st) - 1) /\
  (pitchindex (my_wavedata st) = 0 ->
   forall es : list event,
     exists st',
       run st es = Some st' /\
       0 <= pitchindex (my_wavedata st') <= scale_length - 1))%Z.
Proof.
  rewrite scale_length_is_8. split; [reflexivity |].
  split; [| split; [| split; [| split]]].
  - intros E. rewrite checkKey_UP.
    destruct (Z.ltb_spec (pitchindex (my_wavedata st)) 7); [lia |].
    reflexivity.
  - intros E. rewrite checkKey_DOWN.
    destruct (Z.gtb_spec (pitchindex (my_wavedata st)) 0); [lia |].
    reflexivity.
  - unfold pitch_in_range. rewrite scale_length_is_8. intros Hin Hne.
    rewrite checkKey_UP.
    destruct (Z.ltb_spec (pitchindex (my_wavedata st)) 7); [| lia].
    simpl. unfold int_add. apply int_wrap_small. lia.
  - unfold pitch_in_range. rewrite scale_length_is_8. intros Hin Hne.
    rewrite checkKey_DOWN.
    destruct (Z.gtb_spec (pitchindex (my_wavedata st)) 0); [| lia].
    simpl. unfold int_sub. apply int_wrap_small. lia.
  - intros E es.
    assert (pitch_in_range st) as Hin
      by (unfold pitch_in_range; rewrite scale_length_is_8; lia).
    destruct (run_pitch_in_range es st Hin) as (st' & Er & Hin').
    exists st'. split; [assumption |].
    unfold pitch_in_range in Hin'. rewrite scale_length_is_8 in Hin'. lia.
Qed.

Lemma pitch_clamp_witness :
  (pitchindex (my_wavedata (checkKey SDLK_UP
     (mkState 0 PIANO 0 0 (mkWavedata 0 0 0.4 7 880)))) = 7 /\
   pitchindex (my_wavedata (checkKey SDLK_DOWN initial_state)) = 0 /\
   pitchindex (my_wavedata (checkKey SDLK_UP
     (mkState 0 PIANO 0 0 (mkWavedata 0 0 0.4 3 880)))) = 3 + 1 /\
   pitchindex (my_wavedata (checkKey SDLK_DOWN
     (mkState 0 PIANO 0 0 (mkWavedata 0 0 0.4 3 880)))) = 3 - 1 /\
   exists st',
     run initial_state
         [KeyDown SDLK_DOWN; KeyDown SDLK_UP; Render 1600; KeyDown SDLK_UP]
       = Some st' /\
     0 <= pitchindex (my_wavedata st') <= scale_length - 1)%Z.
Proof.
  pose (top := mkState 0 PIANO 0 0 (mkWavedata 0 0 0.4 7 880)).
  pose (mid := mkState 0 PIANO 0 0 (mkWavedata 0 0 0.4 3 880)).
  destruct (pitch_clamp top) as (_ & Htop & _).
  destruct (pitch_clamp mid) as (_ & _ & _ & Hup & Hdown & _).
  destruct (pitch_clamp initial_state) as (_ & _ & Hbot & _ & _ & Hrun).
  assert (pitch_in_range mid) as Hmid
    by (unfold pitch_in_range; rewrite scale_length_is_8; simpl; lia).
  assert (pitchindex (my_wavedata initial_state) = 0%Z) as H0
    by reflexivity.
  split; [apply Htop; reflexivity |].
  split; [apply Hbot; exact H0 |].
  split; [apply Hup; [exact Hmid | rewrite scale_length_is_8; simpl; lia] |].
  split; [apply Hdown; [exact Hmid | simpl; lia] |].
  apply Hrun. exact H0.
Defined.

End PitchClamp.

(** ** Field ownership and the range of the samples *)

Section Frame.

(** What the callback leaves alone. *)
Lemma generateWaveform_frame (st st' : state) (len : nat) (buf : list Z) :
  generateWaveform st len = Some (buf, st') ->
  quit st' = quit st /\
  instr st' = instr st /\
  colorblind st' = colorblind st /\
  mute st' = mute st /\
  pitchindex (my_wavedata st') = pitchindex (my_wavedata st) /\
  modulator_pitch (my_wavedata st') = modulator_pitch (my_wavedata st) /\
  modulator_amplitude (my_wavedata st')
    = modulator_amplitude (my_wavedata st).
Proof.
  unfold generateWaveform.
  destruct (pitches_at (pitchindex (my_wavedata st))); [| discriminate].
  intros E. injection E as _ <-. repeat split.
Qed.



Lemma sample_value_bounds
    (m_amplitude m_pitch m_phase c_pitch c_phase : R) (i : nat) :
  -32767 <= sample_value m_amplitude m_pitch m_phase c_pitch c_phase i
         <= 32767.
Proof.
  unfold sample_value.
  match goal with |- _ <= sin ?x * _ <= _ =>
    pose proof (SIN_bound x) as [L U] end.
  split; lra.
Qed.

Lemma fill_buffer_bounds (f : nat -> R) (size : nat) :
  (forall i, -32767 <= f i <= 32767) ->
  Forall (fun s => (-32767 <= s <= 32767)%Z) (fill_buffer f size).
Proof.
  intros Hf. unfold fill_buffer. apply Forall_map, Forall_forall.
  intros i _. unfold double_to_short.
  apply (Rtrunc_between (f i) (-32767) 32767); [lia | apply Hf].
Qed.

(** C9.  Every value assigned to [dest[i]] is [sin (...) * 32767] and lies
    in [[-32767, 32767]], so its conversion to a [short] is within
    [[SHRT_MIN, SHRT_MAX]]; every sample of every buffer that
    [generateWaveform] writes lies in [[-32767, 32767]], for every state
    and every buffer length. *)
Theorem samples_fit_short (st : state) (len : nat) :
  (forall m_amplitude m_pitch m_phase c_pitch c_phase i,
     -32767 <= sample_value m_amplitude m_pitch m_phase c_pitch c_phase i
            <= 32767 /\
     (SHRT_MIN <= double_to_short
                    (sample_value m_amplitude m_pitch m_phase
                                  c_pitch c_phase i)
               <= SHRT_MAX)%Z) /\
  (pitch_in_range st ->
   exists buf st', generateWaveform st len = Some (buf, st')) /\
  (forall buf st',
     generateWaveform st len = Some (buf, st') ->
     length buf = (len / sizeof_short)%nat /\
     Forall (fun s => (-32767 <= s <= 32767)%Z) buf).
Proof.
  split; [| split].
  - intros A mp mph cp cph i.
    pose proof (sample_value_bounds A mp mph cp cph i) as B.
    split; [exact B |].
    unfold double_to_short, SHRT_MIN, SHRT_MAX.
    pose proof (Rtrunc_between _ (-32767) 32767 ltac:(lia) B). lia.
  - intros Hin. rewrite (generateWaveform_defined st len Hin).
    eexists. eexists. reflexivity.
  - intros buf st' E.
    pose proof (generateWaveform_Some st st' len buf E) as Hin.
    rewrite (generateWaveform_defined st len Hin) in E.
    set (size := (len / sizeof_short)%nat) in *.
    injection E as <- _. split.
    + apply fill_buffer_length.
    + apply fill_buffer_bounds. intros i. apply sample_value_bounds.
Qed.

Lemma samples_fit_short_witness :
  pitch_in_range initial_state /\
  exists buf st',
    generateWaveform initial_state 1600 = Some (buf, st') /\
    length buf = (1600 / sizeof_short)%nat /\
    Forall (fun s => (-32767 <= s <= 32767)%Z) buf.
Proof.
  split; [exact initial_pitch_in_range |].
  destruct (samples_fit_short initial_state 1600) as (_ & Hdef & Hfit).
  destruct (Hdef initial_pitch_in_range) as (buf & st' & E).
  exists buf, st'. split; [exact E |]. exact (Hfit buf st' E).
Defined.

(** C7.  On a state whose phases lie in [[0, 2 PI)], a call for zero
    samples writes no sample and leaves every field of the state as it
    was. *)
Theorem zero_samples_noop (st : state) (len : nat) :
  phases_in_range st -> (len / sizeof_short = 0)%nat ->
  (pitch_in_range st -> generateWaveform st len = Some ([], st)) /\
  (forall buf st',
     generateWaveform st len = Some (buf, st') -> buf = [] /\ st' = st).
Proof.
  intros [Hc Hm] Hsize.
  assert (pitch_in_range st -> generateWaveform st len = Some ([], st))
    as Hnoop.
  { intros Hin. rewrite (generateWaveform_defined st len Hin).
    rewrite Hsize. simpl INR. unfold Rdiv.
    rewrite !Rmult_0_r, !Rmult_0_l, !Rplus_0_l.
    unfold phase_in_range in Hc, Hm. rewrite <- TAU_eq in Hc, Hm.
    rewrite !fmod_small by assumption.
    unfold fill_buffer, set_wavedata. simpl.
    destruct st as [q r c m [cp mp ma pi mpi]]. reflexivity. }
  split; [exact Hnoop |].
  intros buf st' E.
  rewrite (Hnoop (generateWaveform_Some st st' len buf E)) in E.
  injection E as <- <-. split; reflexivity.
Qed.

Lemma zero_samples_noop_witness :
  phases_in_range initial_state /\ (0 / sizeof_short = 0)%nat /\
  generateWaveform initial_state 0 = Some ([], initial_state).
Proof.
  split; [exact (wf_phases _ initial_well_formed) |].
  split; [reflexivity |].
  apply (zero_samples_noop initial_state 0).
  - exact (wf_phases _ initial_well_formed).
  - reflexivity.
  - exact initial_pitch_in_range.
Defined.

End Frame.

(** ** Toggles *)

Section Toggles.

Lemma toggle_flag_value (f : Z) :
  is_flag f -> int_mod (int_add f 1) 2 = (1 - f)%Z.
Proof. intros [-> | ->]; reflexivity. Qed.

(** C10.  On a state whose mute flag is 0 or 1 the 'm' key flips that
    flag and nothing else, and pressed twice it gives the state back; the
    same for BACKSPACE and the colorblind flag; and on a state whose
    instrument ratio is one of the two presets the 'i' key pressed twice
    gives the state back. *)
Theorem toggles_are_involutions (st : state) :
  (is_flag (mute st) ->
   checkKey SDLK_m st
     = mkState (quit st) (instr st) (colorblind st) (1 - mute st)
               (my_wavedata st) /\
   checkKey SDLK_m (checkKey SDLK_m st) = st) /\
  (is_flag (colorblind st) ->
   checkKey SDLK_BACKSPACE st
     = mkState (quit st) (instr st) (1 - colorblind st) (mute st)
               (my_wavedata st) /\
   checkKey SDLK_BACKSPACE (checkKey SDLK_BACKSPACE st) = st) /\
  (is_preset (instr st) ->
   checkKey SDLK_i st
     = mkState (quit st) (instr (checkKey SDLK_i st)) (colorblind st)
               (mute st) (my_wavedata st) /\
   checkKey SDLK_i (checkKey SDLK_i st) = st).
Proof.
  split; [| split].
  - intros Hf. rewrite !checkKey_m. simpl.
    rewrite toggle_flag_twice, toggle_flag_value by assumption.
    split; [reflexivity | apply state_eta].
  - intros Hf. rewrite !checkKey_BACKSPACE. simpl.
    rewrite toggle_flag_twice, toggle_flag_value by assumption.
    split; [reflexivity | apply state_eta].
  - intros Hp. rewrite !checkKey_i. simpl.
    rewrite updateWavedata_same. split; [reflexivity |].
    rewrite toggle_instr_twice by assumption.
    rewrite updateWavedata_same. apply state_eta.
Qed.

Lemma toggles_are_involutions_witness :
  is_flag (mute initial_state) /\
  is_flag (colorblind initial_state) /\
  is_preset (instr initial_state) /\
  checkKey SDLK_m (checkKey SDLK_m initial_state) = initial_state /\
  checkKey SDLK_BACKSPACE (checkKey SDLK_BACKSPACE initial_state)
    = initial_state /\
  checkKey SDLK_i (checkKey SDLK_i initial_state) = initial_state.
Proof.
  destruct (toggles_are_involutions initial_state) as (Hm & Hc & Hi).
  pose proof (wf_mute _ initial_well_formed) as Fm.
  pose proof (wf_colorblind _ initial_well_formed) as Fc.
  pose proof (wf_instr _ initial_well_formed) as Fi.
  split; [exact Fm |]. split; [exact Fc |]. split; [exact Fi |].
  split; [exact (proj2 (Hm Fm)) |].
  split; [exact (proj2 (Hc Fc)) | exact (proj2 (Hi Fi))].
Defined.

End Toggles.

(** ** The instrument toggle *)

Section Instrument.

Lemma checkKey_i_fields (st : state) :
  my_wavedata (checkKey SDLK_i st) = my_wavedata st /\
  instr (checkKey SDLK_i st)
    = (if Req_dec_T (instr st) PIANO then GUITAR else PIANO).
Proof.
  rewrite checkKey_i. simpl. rewrite updateWavedata_same.
  split; reflexivity.
Qed.

(** The callback does not read the [modulator_pitch] field: two states
    that differ in it only render alike. *)
Lemma generateWaveform_ignores_modulator_pitch
    (st : state) (len : nat) (stale : Z) :
  let with_pitch s :=
    set_wavedata s
      (mkWavedata (carrier_phase (my_wavedata s))
                  (modulator_phase (my_wavedata s))
                  (modulator_amplitude (my_wavedata s))
                  (pitchindex (my_wavedata s)) stale) in
  generateWaveform (with_pitch st) len
  = option_map (fun r => (fst r, with_pitch (snd r)))
               (generateWaveform st len).
Proof.
  intros with_pitch. unfold generateWaveform, with_pitch. simpl.
  destruct (pitches_at (pitchindex (my_wavedata st))); reflexivity.
Qed.

(** C6.  The 'i' key turns the piano ratio 2.0 into the guitar ratio 0.5
    and the guitar ratio into the piano ratio, and leaves the stored
    [modulator_pitch] field as it was.  The next [generateWaveform]
    renders with the modulator pitch [instr * pitches[pitchindex]] for the
    new [instr], in the samples and in the phase update, and the stored
    [modulator_pitch] field has no influence on either. *)
Theorem instrument_toggle (st : state) (len : nat) (stale : Z) :
  pitch_in_range st ->
  let st_i := checkKey SDLK_i st in
  let w := my_wavedata st in
  let size := (len / sizeof_short)%nat in
  PIANO = 2 /\ GUITAR = 0.5 /\
  (instr st = PIANO -> instr st_i = GUITAR) /\
  (instr st = GUITAR -> instr st_i = PIANO) /\
  is_preset (instr st_i) /\
  modulator_pitch (my_wavedata st_i) = modulator_pitch w /\
  exists buf st',
    generateWaveform st_i len = Some (buf, st') /\
    (forall i, (i < size)%nat ->
       nth_error buf i =
         Some (double_to_short
                 (32767
                  * sin (modulator_amplitude w
                           * sin (2 * PI * (instr st_i * carrierPitch st)
                                    * INR i / 48000
                                  + modulator_phase w)
                         + 2 * PI * carrierPitch st * INR i / 48000
                         + carrier_phase w)))) /\
    modulator_phase (my_wavedata st')
      = fmod (instr st_i * carrierPitch st * TAU * INR size / 48000
              + modulator_phase w) TAU /\
    generateWaveform
      (set_wavedata st_i
         (mkWavedata (carrier_phase w) (modulator_phase w)
                     (modulator_amplitude w) (pitchindex w) stale)) len
    = Some (buf,
            set_wavedata st'
              (mkWavedata (carrier_phase (my_wavedata st'))
                          (modulator_phase (my_wavedata st'))
                          (modulator_amplitude (my_wavedata st'))
                          (pitchindex (my_wavedata st')) stale)).
Proof.
  intros Hin st_i w size.
  destruct (checkKey_i_fields st) as (Ew & Ei).
  fold st_i in Ew, Ei. fold w in Ew.
  assert (pitch_in_range st_i) as Hin_i
    by (unfold pitch_in_range; rewrite Ew; exact Hin).
  assert (carrierPitch st_i = carrierPitch st) as Ec
    by (unfold carrierPitch; rewrite Ew; reflexivity).
  split; [reflexivity |]. split; [unfold GUITAR; reflexivity |].
  split; [| split; [| split; [| split]]].
  - intros E. rewrite Ei, E.
    destruct (Req_dec_T PIANO PIANO); [reflexivity | contradiction].
  - intros E. rewrite Ei, E.
    destruct (Req_dec_T GUITAR PIANO) as [e | _]; [| reflexivity].
    destruct (PIANO_neq_GUITAR e).
  - rewrite Ei. apply toggle_instr_preset.
  - rewrite Ew. reflexivity.
  - pose proof (generateWaveform_defined st_i len Hin_i) as E.
    fold size in E. rewrite Ew, Ec in E. fold w in E.
    eexists. eexists. split; [exact E |]. split; [| split].
    + intros i Hi. rewrite fill_buffer_nth by assumption.
      rewrite sample_value_formula. reflexivity.
    + reflexivity.
    + pose proof (generateWaveform_ignores_modulator_pitch st_i len stale)
        as Eg.
      cbv beta zeta in Eg. rewrite Ew in Eg. fold w in Eg.
      rewrite Eg, E. reflexivity.
Qed.

Lemma instrument_toggle_witness :
  pitch_in_range initial_state /\
  instr initial_state = PIANO /\
  instr (checkKey SDLK_i initial_state) = GUITAR.
Proof.
  split; [exact initial_pitch_in_range |].
  split; [reflexivity |].
  destruct (instrument_toggle initial_state 1600 0 initial_pitch_in_range)
    as (_ & _ & Hpg & _).
  apply Hpg. reflexivity.
Defined.

End Instrument.

(** ** The envelope on the modulator amplitude *)

Section Envelope.

Lemma sdltest_amplitude_step (w : SdlTest.wavedata) (len : nat) :
  SdlTest.modulator_amplitude (snd (SdlTest.generateWaveform w len))
  = if Rlt_dec 0 (SdlTest.modulator_amplitude w)
    then SdlTest.modulator_amplitude w - 0.0066666666
    else 0.4.
Proof. reflexivity. Qed.

Lemma render_calls_succ (n len : nat) :
  forall w,
    SdlTest.render_calls (S n) len w
    = snd (SdlTest.generateWaveform (SdlTest.render_calls n len w) len).
Proof.
  induction n as [| n IH]; intros w; [reflexivity |].
  change (SdlTest.render_calls (S (S n)) len w)
    with (SdlTest.render_calls (S n) len
            (snd (SdlTest.generateWaveform w len))).
  rewrite IH. reflexivity.
Qed.

Lemma INR_60 : INR 60 = 60.
Proof. rewrite INR_IZR_INZ. reflexivity. Qed.

(** The decay is linear for as long as the amplitude was positive before
    the call: 61 calls from the maximum. *)
Lemma sdltest_amplitude_decay (w : SdlTest.wavedata) (len n : nat) :
  SdlTest.modulator_amplitude w = 0.4 -> (n <= 61)%nat ->
  SdlTest.modulator_amplitude (SdlTest.render_calls n len w)
  = 0.4 - INR n * 0.0066666666.
Proof.
  intros Hw. induction n as [| n IH]; intros Hn.
  - simpl. rewrite Hw. lra.
  - rewrite render_calls_succ, sdltest_amplitude_step.
    rewrite IH by lia. rewrite S_INR.
    assert (INR n <= 60) as Hle
      by (rewrite <- INR_60; apply le_INR; lia).
    destruct (Rlt_dec 0 (0.4 - INR n * 0.0066666666)); lra.
Qed.

(** C5, as amended.  In [sdltest.c] every call of [generateWaveform]
    subtracts 0.0066666666 from a positive modulator amplitude and sets a
    non-positive one to 0.4.  From 0.4 the amplitude after [n <= 61]
    calls is [0.4 - n * 0.0066666666]: it decreases at every call, is
    still positive after 60 calls, is non-positive after 61, and is 0.4
    again after 62.  In [theremingame.c] the envelope is commented out:
    [generateWaveform] leaves the modulator amplitude as it was. *)
Theorem envelope_cycle
    (w : SdlTest.wavedata) (st : state) (len : nat) :
  ((0 < SdlTest.modulator_amplitude w ->
    SdlTest.modulator_amplitude (snd (SdlTest.generateWaveform w len))
    = SdlTest.modulator_amplitude w - 0.0066666666) /\
   (SdlTest.modulator_amplitude w <= 0 ->
    SdlTest.modulator_amplitude (snd (SdlTest.generateWaveform w len))
    = 0.4)) /\
  (SdlTest.modulator_amplitude w = 0.4 ->
   (forall n, (n <= 61)%nat ->
      SdlTest.modulator_amplitude (SdlTest.render_calls n len w)
      = 0.4 - INR n * 0.0066666666) /\
   (forall n, (n < 61)%nat ->
      SdlTest.modulator_amplitude (SdlTest.render_calls (S n) len w)
      < SdlTest.modulator_amplitude (SdlTest.render_calls n len w)) /\
   (forall n, (n <= 60)%nat ->
      0 < SdlTest.modulator_amplitude (SdlTest.render_calls n len w)) /\
   SdlTest.modulator_amplitude (SdlTest.render_calls 61 len w) <= 0 /\
   SdlTest.modulator_amplitude (SdlTest.render_calls 62 len w) = 0.4) /\
  (forall buf st',
     generateWaveform st len = Some (buf, st') ->
     modulator_amplitude (my_wavedata st')
     = modulator_amplitude (my_wavedata st)).
Proof.
  split; [| split].
  - rewrite sdltest_amplitude_step.
    destruct (Rlt_dec 0 (SdlTest.modulator_amplitude w)); split; intros;
      lra.
  - intros Hw.
    pose proof (sdltest_amplitude_decay w len) as D.
    assert (SdlTest.modulator_amplitude (SdlTest.render_calls 61 len w)
            <= 0) as H61.
    { rewrite (D 61%nat Hw) by lia.
      replace (INR 61) with 61 by (rewrite INR_IZR_INZ; reflexivity).
      lra. }
    split; [intros n Hn; apply D; assumption |].
    split; [| split; [| split]].
    + intros n Hn. rewrite !D by (assumption || lia).
      rewrite S_INR. lra.
    + intros n Hn. rewrite D by (assumption || lia).
      assert (INR n <= 60) by (rewrite <- INR_60; apply le_INR; lia).
      lra.
    + exact H61.
    + rewrite render_calls_succ, sdltest_amplitude_step.
      destruct (Rlt_dec 0 _); [lra | reflexivity].
  - intros buf st' E. apply (generateWaveform_frame st st' len buf E).
Qed.

Lemma envelope_cycle_witness :
  SdlTest.modulator_amplitude SdlTest.initial_wavedata = 0.4 /\
  0 < SdlTest.modulator_amplitude
        (SdlTest.render_calls 60 3200 SdlTest.initial_wavedata) /\
  SdlTest.modulator_amplitude
    (SdlTest.render_calls 61 3200 SdlTest.initial_wavedata) <= 0 /\
  SdlTest.modulator_amplitude
    (SdlTest.render_calls 62 3200 SdlTest.initial_wavedata) = 0.4.
Proof.
  assert (SdlTest.modulator_amplitude SdlTest.initial_wavedata = 0.4)
    as H0 by reflexivity.
  destruct (envelope_cycle SdlTest.initial_wavedata initial_state 3200)
    as (_ & Hcycle & _).
  destruct (Hcycle H0) as (_ & _ & Hpos & H61 & H62).
  split; [exact H0 |]. split; [apply Hpos; lia |].
  split; [exact H61 | exact H62].
Defined.

(** C5 as written fails twice.  The callback of [theremingame.c] does not
    decrement a positive modulator amplitude; and in [sdltest.c] the
    amplitude is not back at its maximum after 60 calls, nor after 61. *)
Lemma envelope_is_not_60_calls :
  (exists buf st',
     generateWaveform initial_state 1600 = Some (buf, st') /\
     0 < modulator_amplitude (my_wavedata initial_state) /\
     modulator_amplitude (my_wavedata st')
       <> modulator_amplitude (my_wavedata initial_state) - 0.0066666666) /\
  0 < SdlTest.modulator_amplitude
        (SdlTest.render_calls 60 3200 SdlTest.initial_wavedata) /\
  SdlTest.modulator_amplitude
    (SdlTest.render_calls 60 3200 SdlTest.initial_wavedata) <> 0.4 /\
  SdlTest.modulator_amplitude
    (SdlTest.render_calls 61 3200 SdlTest.initial_wavedata) <> 0.4.
Proof.
  assert (SdlTest.modulator_amplitude SdlTest.initial_wavedata = 0.4)
    as H0 by reflexivity.
  pose proof (sdltest_amplitude_decay SdlTest.initial_wavedata 3200) as D.
  pose proof (D 60%nat H0 ltac:(lia)) as D60.
  pose proof (D 61%nat H0 ltac:(lia)) as D61.
  rewrite INR_60 in D60.
  replace (INR 61) with 61 in D61 by (rewrite INR_IZR_INZ; reflexivity).
  split; [| split; [| split]].
  - pose proof (generateWaveform_defined initial_state 1600
                  initial_pitch_in_range) as E.
    eexists. eexists. split; [exact E |].
    rewrite initial_state_eq. simpl. split; lra.
  - rewrite D60. lra.
  - rewrite D60. lra.
  - rewrite D61. lra.
Qed.

End Envelope.

(** * Further properties of the key handler *)

Section KeyHandlerMore.

(** X1.  A key that [checkKey] has no branch for changes nothing: the
    state after the call is the state before it. *)
Theorem checkKey_unbound_key (key : Keycode) (st : state) :
  key <> SDLK_ESCAPE -> key <> SDLK_q -> key <> SDLK_UP ->
  key <> SDLK_DOWN -> key <> SDLK_BACKSPACE -> key <> SDLK_i ->
  key <> SDLK_m ->
  checkKey key st = st.
Proof.
  intros He Hq Hu Hd Hb Hi Hm. unfold checkKey.
  apply Z.eqb_neq in He, Hq, Hu, Hd, Hb, Hi, Hm.
  rewrite He, Hq, Hu, Hd, Hb, Hi, Hm. reflexivity.
Qed.

Lemma checkKey_unbound_key_witness :
  checkKey 97%Z initial_state = initial_state.
Proof.
  apply (checkKey_unbound_key 97%Z initial_state); discriminate.
Defined.

Lemma checkKey_quit_field (key : Keycode) (st : state) :
  quit (checkKey key st)
  = if ((key =? SDLK_ESCAPE) || (key =? SDLK_q))%Z then 1%Z else quit st.
Proof. checkKey_cases; reflexivity. Qed.

Lemma generateWaveform_quit (st st' : state) (len : nat) (buf : list Z) :
  generateWaveform st len = Some (buf, st') -> quit st' = quit st.
Proof. intros E. apply (generateWaveform_frame st st' len buf E). Qed.

Lemma run_quit_sticky (es : list event) :
  forall st st', run st es = Some st' -> quit st = 1%Z -> quit st' = 1%Z.
Proof.
  induction es as [| e es IH]; intros st st' E Hq.
  - injection E as <-. assumption.
  - simpl in E. destruct e as [key | len]; simpl in E.
    + apply (IH _ _ E). rewrite checkKey_quit_field, Hq.
      destruct ((key =? SDLK_ESCAPE) || (key =? SDLK_q))%Z; reflexivity.
    + destruct (generateWaveform st len) as [[buf st1] |] eqn:Eg;
        [| discriminate].
      simpl in E. apply (IH _ _ E).
      rewrite (generateWaveform_quit st st1 len buf Eg). assumption.
Qed.

(** X2.  Only ESCAPE and q write [quit], they write 1 and leave every
    other field alone, and nothing ever clears it: after any sequence of
    key presses and render calls a quit that was requested still is. *)
Theorem quit_is_only_set (key : Keycode) (st : state) (es : list event) :
  (key = SDLK_ESCAPE \/ key = SDLK_q ->
   checkKey key st
   = mkState 1 (instr st) (colorblind st) (mute st) (my_wavedata st)) /\
  (key <> SDLK_ESCAPE -> key <> SDLK_q ->
   quit (checkKey key st) = quit st) /\
  (quit st = 1%Z ->
   forall st', run st es = Some st' -> quit st' = 1%Z).
Proof.
  split; [| split].
  - apply checkKey_quit.
  - intros He Hq. rewrite checkKey_quit_field.
    apply Z.eqb_neq in He, Hq. rewrite He, Hq. reflexivity.
  - intros Hq st' E. exact (run_quit_sticky es st st' E Hq).
Qed.

Lemma quit_is_only_set_witness :
  quit (checkKey SDLK_q initial_state) = 1%Z /\
  quit (checkKey SDLK_m initial_state) = quit initial_state /\
  forall st',
    run (checkKey SDLK_q initial_state) [KeyDown SDLK_m; Render 1600]
      = Some st' ->
    quit st' = 1%Z.
Proof.
  destruct (quit_is_only_set SDLK_q initial_state []) as (Hset & _).
  destruct (quit_is_only_set SDLK_m initial_state []) as (_ & Hkeep & _).
  destruct (quit_is_only_set SDLK_q (checkKey SDLK_q initial_state)
              [KeyDown SDLK_m; Render 1600]) as (_ & _ & Hrun).
  split; [rewrite Hset by (right; reflexivity); reflexivity |].
  split; [apply Hkeep; discriminate |].
  apply Hrun. rewrite Hset by (right; reflexivity). reflexivity.
Defined.

Lemma wavedata_eta (wd : wavedata) :
  mkWavedata (carrier_phase wd) (modulator_phase wd)
             (modulator_amplitude wd) (pitchindex wd) (modulator_pitch wd)
  = wd.
Proof. destruct wd. reflexivity. Qed.

(** The state with its pitch index replaced. *)
Lemma set_pitch_same (st : state) :
  set_wavedata st (updateWavedata (my_wavedata st)
                                  (pitchindex (my_wavedata st))) = st.
Proof. rewrite updateWavedata_same. apply state_eta. Qed.

Lemma checkKey_UP_moves (st : state) :
  (- 2 ^ 31 <= pitchindex (my_wavedata st) < 7)%Z ->
  checkKey SDLK_UP st
  = set_wavedata st (updateWavedata (my_wavedata st)
                       (pitchindex (my_wavedata st) + 1)).
Proof.
  intros H. rewrite checkKey_UP.
  destruct (Z.ltb_spec (pitchindex (my_wavedata st)) 7); [| lia].
  unfold int_add. rewrite int_wrap_small by lia. reflexivity.
Qed.

Lemma checkKey_DOWN_moves (st : state) :
  (0 < pitchindex (my_wavedata st) < 2 ^ 31)%Z ->
  checkKey SDLK_DOWN st
  = set_wavedata st (updateWavedata (my_wavedata st)
                       (pitchindex (my_wavedata st) - 1)).
Proof.
  intros H. rewrite checkKey_DOWN.
  destruct (Z.gtb_spec (pitchindex (my_wavedata st)) 0); [| lia].
  unfold int_sub. rewrite int_wrap_small by lia. reflexivity.
Qed.

Lemma checkKey_UP_top (st : state) :
  (7 <= pitchindex (my_wavedata st))%Z -> checkKey SDLK_UP st = st.
Proof.
  intros H. rewrite checkKey_UP.
  destruct (Z.ltb_spec (pitchindex (my_wavedata st)) 7); [lia |].
  reflexivity.
Qed.

Lemma checkKey_DOWN_bottom (st : state) :
  (pitchindex (my_wavedata st) <= 0)%Z -> checkKey SDLK_DOWN st = st.
Proof.
  intros H. rewrite checkKey_DOWN.
  destruct (Z.gtb_spec (pitchindex (my_wavedata st)) 0); [lia |].
  reflexivity.
Qed.

Lemma set_pitch_twice (st : state) (p q : Z) :
  set_wavedata
    (set_wavedata st (updateWavedata (my_wavedata st) p))
    (updateWavedata
       (my_wavedata (set_wavedata st (updateWavedata (my_wavedata st) p)))
       q)
  = set_wavedata st (updateWavedata (my_wavedata st) q).
Proof. reflexivity. Qed.

Lemma up_down_round_trip_facts (st : state) :
  ((0 <= pitchindex (my_wavedata st) < 7)%Z ->
   checkKey SDLK_DOWN (checkKey SDLK_UP st) = st) /\
  (pitchindex (my_wavedata st) = 0%Z ->
   pitchindex (my_wavedata (checkKey SDLK_UP (checkKey SDLK_DOWN st)))
   = 1%Z).
Proof.
  split.
  - intros H. rewrite (checkKey_UP_moves st) by lia.
    rewrite checkKey_DOWN_moves by (simpl; lia).
    rewrite set_pitch_twice. simpl pitchindex.
    replace (pitchindex (my_wavedata st) + 1 - 1)%Z
      with (pitchindex (my_wavedata st)) by lia.
    apply set_pitch_same.
  - intros H. rewrite (checkKey_DOWN_bottom st) by lia.
    rewrite checkKey_UP_moves by lia. simpl. lia.
Qed.

(** X3.  Inside the scale DOWN undoes UP and UP undoes DOWN: the whole
    state comes back.  At the two ends it does not: UP at the top is a
    no-op, so DOWN after it lands one note lower, and likewise at the
    bottom. *)
Theorem up_down_round_trip (st : state) :
  ((0 <= pitchindex (my_wavedata st) < 7)%Z ->
   checkKey SDLK_DOWN (checkKey SDLK_UP st) = st) /\
  ((0 < pitchindex (my_wavedata st) <= 7)%Z ->
   checkKey SDLK_UP (checkKey SDLK_DOWN st) = st) /\
  (pitchindex (my_wavedata st) = 7%Z ->
   pitchindex (my_wavedata (checkKey SDLK_DOWN (checkKey SDLK_UP st)))
   = 6%Z) /\
  (pitchindex (my_wavedata st) = 0%Z ->
   pitchindex (my_wavedata (checkKey SDLK_UP (checkKey SDLK_DOWN st)))
   = 1%Z).
Proof.
  split; [| split; [| split]].
  - intros H. rewrite (checkKey_UP_moves st) by lia.
    rewrite checkKey_DOWN_moves by (simpl; lia).
    rewrite set_pitch_twice. simpl pitchindex.
    replace (pitchindex (my_wavedata st) + 1 - 1)%Z
      with (pitchindex (my_wavedata st)) by lia.
    apply set_pitch_same.
  - intros H. rewrite (checkKey_DOWN_moves st) by lia.
    rewrite checkKey_UP_moves by (simpl; lia).
    rewrite set_pitch_twice. simpl pitchindex.
    replace (pitchindex (my_wavedata st) - 1 + 1)%Z
      with (pitchindex (my_wavedata st)) by lia.
    apply set_pitch_same.
  - intros H. rewrite (checkKey_UP_top st) by lia.
    rewrite checkKey_DOWN_moves by lia. simpl. lia.
  - intros H. rewrite (checkKey_DOWN_bottom st) by lia.
    rewrite checkKey_UP_moves by lia. simpl. lia.
Qed.

Lemma up_down_round_trip_witness :
  checkKey SDLK_DOWN (checkKey SDLK_UP initial_state) = initial_state /\
  pitchindex (my_wavedata
    (checkKey SDLK_UP (checkKey SDLK_DOWN initial_state))) = 1%Z.
Proof.
  destruct (up_down_round_trip initial_state) as (Hud & _ & _ & Hbot).
  split.
  - apply Hud. rewrite initial_state_eq. simpl. lia.
  - apply Hbot. rewrite initial_state_eq. reflexivity.
Defined.

End KeyHandlerMore.

Section KeySequences.

Lemma iter_UP (n : nat) (st : state) :
  (0 <= pitchindex (my_wavedata st) <= 7)%Z ->
  Nat.iter n (checkKey SDLK_UP) st
  = set_wavedata st
      (updateWavedata (my_wavedata st)
         (Z.min (pitchindex (my_wavedata st) + Z.of_nat n) 7)).
Proof.
  intros H. induction n as [| n IH].
  - simpl Nat.iter. rewrite Z.add_0_r, Z.min_l by lia.
    symmetry. apply set_pitch_same.
  - change (Nat.iter (S n) (checkKey SDLK_UP) st)
      with (checkKey SDLK_UP (Nat.iter n (checkKey SDLK_UP) st)).
    rewrite IH.
    destruct (Z_lt_le_dec (pitchindex (my_wavedata st) + Z.of_nat n) 7)
      as [Hlt | Hge].
    + rewrite checkKey_UP_moves by (simpl; lia).
      rewrite set_pitch_twice. simpl pitchindex. do 2 f_equal. lia.
    + rewrite checkKey_UP_top by (simpl; lia). do 2 f_equal. lia.
Qed.

Lemma iter_DOWN (n : nat) (st : state) :
  (0 <= pitchindex (my_wavedata st) <= 7)%Z ->
  Nat.iter n (checkKey SDLK_DOWN) st
  = set_wavedata st
      (updateWavedata (my_wavedata st)
         (Z.max (pitchindex (my_wavedata st) - Z.of_nat n) 0)).
Proof.
  intros H. induction n as [| n IH].
  - simpl Nat.iter. rewrite Z.sub_0_r, Z.max_l by lia.
    symmetry. apply set_pitch_same.
  - change (Nat.iter (S n) (checkKey SDLK_DOWN) st)
      with (checkKey SDLK_DOWN (Nat.iter n (checkKey SDLK_DOWN) st)).
    rewrite IH.
    destruct (Z_lt_le_dec 0 (pitchindex (my_wavedata st) - Z.of_nat n))
      as [Hlt | Hge].
    + rewrite checkKey_DOWN_moves by (simpl; lia).
      rewrite set_pitch_twice. simpl pitchindex. do 2 f_equal. lia.
    + rewrite checkKey_DOWN_bottom by (simpl; lia). do 2 f_equal. lia.
Qed.

(** X4.  Key presses saturate.  From a pitch index [p] of the scale,
    [n] presses of UP leave the index at [min (p + n) 7] and [n] presses
    of DOWN at [max (p - n) 0], and no other field has changed; so seven
    presses reach either end from anywhere. *)
Theorem repeated_presses_saturate (st : state) (n : nat) :
  pitch_in_range st ->
  Nat.iter n (checkKey SDLK_UP) st
  = set_wavedata st
      (updateWavedata (my_wavedata st)
         (Z.min (pitchindex (my_wavedata st) + Z.of_nat n) 7)) /\
  Nat.iter n (checkKey SDLK_DOWN) st
  = set_wavedata st
      (updateWavedata (my_wavedata st)
         (Z.max (pitchindex (my_wavedata st) - Z.of_nat n) 0)) /\
  pitchindex (my_wavedata (Nat.iter 7 (checkKey SDLK_UP) st)) = 7%Z /\
  pitchindex (my_wavedata (Nat.iter 7 (checkKey SDLK_DOWN) st)) = 0%Z.
Proof.
  unfold pitch_in_range. rewrite scale_length_is_8. intros H.
  assert (0 <= pitchindex (my_wavedata st) <= 7)%Z as H' by lia.
  split; [apply iter_UP; assumption |].
  split; [apply iter_DOWN; assumption |].
  split.
  - rewrite (iter_UP 7 st H'). simpl pitchindex. lia.
  - rewrite (iter_DOWN 7 st H'). simpl pitchindex. lia.
Qed.

Lemma repeated_presses_saturate_witness :
  pitch_in_range initial_state /\
  pitchindex (my_wavedata (Nat.iter 7 (checkKey SDLK_UP) initial_state))
  = 7%Z.
Proof.
  split; [exact initial_pitch_in_range |].
  apply (repeated_presses_saturate initial_state 7).
  exact initial_pitch_in_range.
Defined.

(** Two keys, after their equations are opened. *)
Ltac two_keys :=
  rewrite ?checkKey_UP, ?checkKey_DOWN, ?checkKey_BACKSPACE, ?checkKey_i,
    ?checkKey_m, ?(checkKey_quit SDLK_ESCAPE) by (left; reflexivity);
  rewrite ?(checkKey_quit SDLK_q) by (right; reflexivity);
  cbn [my_wavedata pitchindex quit instr colorblind mute set_wavedata
       updateWavedata carrier_phase modulator_phase modulator_amplitude
       modulator_pitch];
  repeat match goal with
         | |- context [(?p <? 7)%Z] => destruct (p <? 7)%Z
         | |- context [(?p >? 0)%Z] => destruct (p >? 0)%Z
         end;
  cbn [my_wavedata pitchindex quit instr colorblind mute set_wavedata
       updateWavedata carrier_phase modulator_phase modulator_amplitude
       modulator_pitch];
  reflexivity.

(** X5.  Keys that write different fields commute: a pitch key, a toggle
    or a quit key on one side and a toggle or a quit key on the other
    give the same state in either order.  UP and DOWN do not: at the
    bottom of the scale the order shows. *)
Theorem keys_commute (k1 k2 : Keycode) (st : state) :
  (In k1 [SDLK_UP; SDLK_DOWN; SDLK_BACKSPACE; SDLK_i; SDLK_m;
          SDLK_ESCAPE; SDLK_q] ->
   In k2 [SDLK_BACKSPACE; SDLK_i; SDLK_m; SDLK_ESCAPE; SDLK_q] ->
   checkKey k1 (checkKey k2 st) = checkKey k2 (checkKey k1 st)) /\
  (pitchindex (my_wavedata st) = 0%Z ->
   checkKey SDLK_UP (checkKey SDLK_DOWN st)
   <> checkKey SDLK_DOWN (checkKey SDLK_UP st)).
Proof.
  split.
  - intros H1 H2. simpl in H1, H2.
    repeat (destruct H1 as [<- | H1]); try contradiction;
      repeat (destruct H2 as [<- | H2]); try contradiction;
      two_keys.
  - intros H0.
    destruct (up_down_round_trip_facts st) as (Hud & Hbot).
    rewrite (Hud ltac:(lia)). intros E.
    apply (f_equal (fun s => pitchindex (my_wavedata s))) in E.
    rewrite (Hbot H0) in E. lia.
Qed.

Lemma keys_commute_witness :
  checkKey SDLK_UP (checkKey SDLK_m initial_state)
  = checkKey SDLK_m (checkKey SDLK_UP initial_state) /\
  checkKey SDLK_UP (checkKey SDLK_DOWN initial_state)
  <> checkKey SDLK_DOWN (checkKey SDLK_UP initial_state).
Proof.
  destruct (keys_commute SDLK_UP SDLK_m initial_state) as (Hc & Hn).
  split.
  - apply Hc; simpl; tauto.
  - apply Hn. rewrite initial_state_eq. reflexivity.
Defined.

End KeySequences.

(** * Further properties of the render callback *)

Section RenderMore.

(** X6.  The callback renders from the pitch index, the ratio, the
    amplitude and the phases only: the buffer and the wavedata it leaves
    are the same whatever [quit], [colorblind] and [mute] hold, so a
    muted game still advances its phases; and the m, BACKSPACE, ESCAPE
    and q keys commute with a render call. *)
Theorem render_ignores_flags
    (st : state) (q c m : Z) (key : Keycode) (len : nat) :
  generateWaveform (mkState q (instr st) c m (my_wavedata st)) len
  = option_map
      (fun res => (fst res,
                   mkState q (instr (snd res)) c m (my_wavedata (snd res))))
      (generateWaveform st len) /\
  (In key [SDLK_m; SDLK_BACKSPACE; SDLK_ESCAPE; SDLK_q] ->
   generateWaveform (checkKey key st) len
   = option_map (fun res => (fst res, checkKey key (snd res)))
                (generateWaveform st len)).
Proof.
  split.
  - unfold generateWaveform. simpl.
    destruct (pitches_at (pitchindex (my_wavedata st))); reflexivity.
  - intros Hk. simpl in Hk.
    repeat (destruct Hk as [<- | Hk]); try contradiction;
      unfold generateWaveform;
      rewrite ?checkKey_m, ?checkKey_BACKSPACE,
        ?(checkKey_quit SDLK_ESCAPE) by (left; reflexivity);
      rewrite ?(checkKey_quit SDLK_q) by (right; reflexivity);
      simpl;
      destruct (pitches_at (pitchindex (my_wavedata st))); reflexivity.
Qed.

Lemma render_ignores_flags_witness :
  generateWaveform (checkKey SDLK_m initial_state) 1600
  = option_map (fun res => (fst res, checkKey SDLK_m (snd res)))
               (generateWaveform initial_state 1600).
Proof.
  apply (render_ignores_flags initial_state 0 0 0 SDLK_m 1600).
  simpl. tauto.
Defined.

(** X8.  The callback writes whole samples only and never past the
    stream: a trailing odd byte is ignored, and the [length buf] shorts
    written are the most that fit into [len] bytes. *)
Theorem render_fits_stream (st : state) (len : nat) :
  generateWaveform st len
  = generateWaveform st (sizeof_short * (len / sizeof_short)) /\
  forall buf st',
    generateWaveform st len = Some (buf, st') ->
    (sizeof_short * length buf <= len
     < sizeof_short * (length buf + 1))%nat.
Proof.
  split.
  - unfold generateWaveform.
    replace (sizeof_short * (len / sizeof_short) / sizeof_short)%nat
      with (len / sizeof_short)%nat; [reflexivity |].
    rewrite Nat.mul_comm, Nat.div_mul by discriminate. reflexivity.
  - intros buf st' E.
    pose proof (generateWaveform_Some st st' len buf E) as Hin.
    rewrite (generateWaveform_defined st len Hin) in E.
    set (size := (len / sizeof_short)%nat) in *.
    injection E as <- _. rewrite fill_buffer_length. unfold size.
    split.
    + apply Nat.Div0.mul_div_le.
    + rewrite Nat.add_1_r. apply Nat.mul_succ_div_gt. discriminate.
Qed.

Lemma render_fits_stream_witness :
  exists buf st',
    generateWaveform initial_state 1601 = Some (buf, st') /\
    (sizeof_short * length buf <= 1601
     < sizeof_short * (length buf + 1))%nat.
Proof.
  destruct (render_fits_stream initial_state 1601) as (_ & Hfit).
  pose proof (generateWaveform_defined initial_state 1601
                initial_pitch_in_range) as E.
  eexists. eexists. split; [exact E |]. exact (Hfit _ _ E).
Defined.

End RenderMore.

(** * The scale, the start state and the reachable states *)

Section ScaleMore.

Lemma pitches_sorted : StronglySorted Rlt pitches.
Proof.
  unfold pitches.
  repeat (apply SSorted_cons;
          [| repeat (apply Forall_cons; [lra |]); apply Forall_nil]).
  apply SSorted_nil.
Qed.

Lemma sorted_nth_error_lt (l : list R) :
  StronglySorted Rlt l ->
  forall i j a b, (i < j)%nat ->
    nth_error l i = Some a -> nth_error l j = Some b -> a < b.
Proof.
  induction 1 as [| x l Hs IH Hx]; intros i j a b Hij Ea Eb.
  - destruct i; discriminate.
  - destruct j as [| j]; [lia |]. simpl in Eb.
    destruct i as [| i].
    + simpl in Ea. injection Ea as <-.
      rewrite Forall_forall in Hx. apply Hx.
      apply (nth_error_In _ _ Eb).
    + simpl in Ea. apply (IH i j); [lia | assumption | assumption].
Qed.

Lemma carrierPitch_lookup (st : state) :
  pitch_in_range st ->
  nth_error pitches (Z.to_nat (pitchindex (my_wavedata st)))
  = Some (carrierPitch st).
Proof.
  intros H. unfold carrierPitch. apply nth_error_nth'.
  unfold pitch_in_range, scale_length in H. lia.
Qed.

Lemma carrierPitch_bounds (st : state) :
  pitch_in_range st -> 261.63 <= carrierPitch st <= 523.25.
Proof.
  intros H. pose proof (carrierPitch_lookup st H) as E.
  apply nth_error_In in E. unfold pitches in E. simpl in E.
  repeat (destruct E as [<- | E]; [lra |]). contradiction.
Qed.

(** X9.  The scale table ascends, so the keys do what their names say:
    when UP moves the index the carrier pitch rises, when DOWN moves it
    the carrier pitch falls.  The carrier stays between C4 and C5, and
    with either instrument the modulator stays below half the sample
    rate. *)
Theorem pitch_keys_move_frequency (st : state) :
  pitch_in_range st ->
  (pitchindex (my_wavedata st) <> 7%Z ->
   carrierPitch st < carrierPitch (checkKey SDLK_UP st)) /\
  (pitchindex (my_wavedata st) <> 0%Z ->
   carrierPitch (checkKey SDLK_DOWN st) < carrierPitch st) /\
  261.63 <= carrierPitch st <= 523.25 /\
  (is_preset (instr st) -> 0 < modulatorPitch st < 48000 / 2).
Proof.
  intros Hin. pose proof Hin as Hr.
  unfold pitch_in_range in Hr. rewrite scale_length_is_8 in Hr.
  pose proof (carrierPitch_lookup st Hin) as E.
  pose proof (carrierPitch_bounds st Hin) as B.
  split; [| split; [| split]].
  - intros Hne.
    pose proof (checkKey_pitch_in_range SDLK_UP st Hin) as Hin'.
    pose proof (carrierPitch_lookup _ Hin') as E'.
    rewrite (checkKey_UP_moves st) in E' by lia. simpl pitchindex in E'.
    rewrite (checkKey_UP_moves st) by lia.
    refine (sorted_nth_error_lt pitches pitches_sorted _ _ _ _ _ E E').
    lia.
  - intros Hne.
    pose proof (checkKey_pitch_in_range SDLK_DOWN st Hin) as Hin'.
    pose proof (carrierPitch_lookup _ Hin') as E'.
    rewrite (checkKey_DOWN_moves st) in E' by lia. simpl pitchindex in E'.
    rewrite (checkKey_DOWN_moves st) by lia.
    refine (sorted_nth_error_lt pitches pitches_sorted _ _ _ _ _ E' E).
    lia.
  - exact B.
  - unfold modulatorPitch, is_preset, PIANO, GUITAR.
    intros [-> | ->]; lra.
Qed.

Lemma pitch_keys_move_frequency_witness :
  pitch_in_range initial_state /\
  carrierPitch initial_state < carrierPitch (checkKey SDLK_UP initial_state).
Proof.
  split; [exact initial_pitch_in_range |].
  destruct (pitch_keys_move_frequency initial_state initial_pitch_in_range)
    as (Hup & _).
  apply Hup. rewrite initial_state_eq. simpl. lia.
Defined.

Lemma createWant_state (st : state) :
  snd (createWant st)
  = mkState (quit st) (instr st) (colorblind st) (mute st)
            (mkWavedata 0 0 0.4 0 (double_to_int (instr st * 440))).
Proof.
  unfold createWant, set_wavedata. simpl. f_equal. f_equal; lra.
Qed.

(** X10.  [createWant] initialises every field of the wavedata: what it
    leaves does not depend on the wavedata it was given, calling it again
    changes nothing, the globals are untouched, and the state it leaves is
    ready for the callback, with the pitch index in the scale and both
    phases at zero.  The stored [modulator_pitch] is 880 for the piano
    and 220 for the guitar. *)
Theorem createWant_initialises (st : state) (garbage : wavedata) :
  snd (createWant (set_wavedata st garbage)) = snd (createWant st) /\
  snd (createWant (snd (createWant st))) = snd (createWant st) /\
  (quit (snd (createWant st)) = quit st /\
   instr (snd (createWant st)) = instr st /\
   colorblind (snd (createWant st)) = colorblind st /\
   mute (snd (createWant st)) = mute st) /\
  pitch_in_range (snd (createWant st)) /\
  phases_in_range (snd (createWant st)) /\
  (instr st = PIANO ->
   modulator_pitch (my_wavedata (snd (createWant st))) = 880%Z) /\
  (instr st = GUITAR ->
   modulator_pitch (my_wavedata (snd (createWant st))) = 220%Z).
Proof.
  split; [reflexivity |]. split; [reflexivity |].
  split; [repeat split |].
  rewrite createWant_state.
  split; [| split; [| split]].
  - unfold pitch_in_range. rewrite scale_length_is_8. simpl. lia.
  - pose proof PI_gt_2. unfold phases_in_range, phase_in_range. simpl. lra.
  - intros ->. simpl. unfold double_to_int, PIANO.
    replace (2 * 440) with (IZR 880) by lra. apply Rtrunc_IZR.
  - intros ->. simpl. unfold double_to_int, GUITAR.
    replace (0.5 * 440) with (IZR 220) by lra. apply Rtrunc_IZR.
Qed.

Lemma createWant_initialises_witness :
  modulator_pitch
    (my_wavedata (snd (createWant (mkState 0 GUITAR 0 0
                                     (mkWavedata 7 7 7 99 0)))))
  = 220%Z.
Proof.
  apply (createWant_initialises
           (mkState 0 GUITAR 0 0 (mkWavedata 7 7 7 99 0))
           (mkWavedata 0 0 0 0 0)).
  reflexivity.
Defined.

Lemma reachable_constants (st : state) :
  reachable st ->
  is_flag (quit st) /\
  modulator_amplitude (my_wavedata st) = 0.4 /\
  modulator_pitch (my_wavedata st) = 880%Z.
Proof.
  induction 1 as [| st key _ IH | st st' len buf _ IH E].
  - rewrite initial_state_eq. simpl.
    split; [left; reflexivity |]. split; reflexivity.
  - destruct IH as (Hq & Ha & Hp).
    destruct (checkKey_render_fields key st) as (_ & _ & Ea & Ep).
    rewrite Ea, Ep, checkKey_quit_field.
    split; [| split; assumption].
    destruct ((key =? SDLK_ESCAPE) || (key =? SDLK_q))%Z;
      [right; reflexivity | assumption].
  - destruct IH as (Hq & Ha & Hp).
    destruct (generateWaveform_frame st st' len buf E)
      as (Eq & _ & _ & _ & _ & Ep & Ea).
    rewrite Eq, Ea, Ep. split; [| split]; assumption.
Qed.

(** X11.  Every state [main] can reach, by any interleaving of key
    presses and render calls from the start state, has its pitch index in
    the scale, both phases in [[0, 2 PI)], a preset ratio and 0/1 flags;
    the callback is defined on it for every length; the modulation depth
    is still 0.4; and the stored [modulator_pitch] is still the 880 of
    start-up, whatever the instrument now is. *)
Theorem reachable_invariants (st : state) (len : nat) :
  reachable st ->
  well_formed st /\
  is_flag (quit st) /\
  (exists buf st', generateWaveform st len = Some (buf, st')) /\
  modulator_amplitude (my_wavedata st) = 0.4 /\
  modulator_pitch (my_wavedata st) = 880%Z.
Proof.
  intros Hr.
  pose proof (reachable_well_formed st Hr) as Hwf.
  destruct (reachable_constants st Hr) as (Hq & Ha & Hp).
  split; [exact Hwf |]. split; [exact Hq |]. split; [| split; assumption].
  rewrite (generateWaveform_defined st len (wf_pitch st Hwf)).
  eexists. eexists. reflexivity.
Qed.

Lemma reachable_invariants_witness :
  reachable (checkKey SDLK_i initial_state) /\
  instr (checkKey SDLK_i initial_state) = GUITAR /\
  modulator_pitch (my_wavedata (checkKey SDLK_i initial_state)) = 880%Z.
Proof.
  assert (reachable (checkKey SDLK_i initial_state)) as Hr
    by (apply reach_key; apply reach_start).
  split; [exact Hr |]. split.
  - rewrite checkKey_i, initial_state_eq. simpl.
    destruct (Req_dec_T PIANO PIANO); [reflexivity | contradiction].
  - apply (reachable_invariants (checkKey SDLK_i initial_state) 1600 Hr).
Defined.

End ScaleMore.

(** * The display and the loop of [main] *)

Section Display.

Import GameLoop.

Lemma note_rect_y : y (note_rect 0) = 640%Z.
Proof.
  unfold note_rect, double_to_int, HEIGHT. simpl y.
  replace (5.0 / 6.0 * 768) with (IZR 640) by lra. apply Rtrunc_IZR.
Qed.

Lemma note_rect_fields (index : Z) :
  (0 <= index < 8)%Z ->
  x (note_rect index) = (50 * index + 50)%Z /\
  y (note_rect index) = 640%Z /\
  w (note_rect index) = 50%Z /\
  h (note_rect index) = 50%Z.
Proof.
  intros H. split; [| split; [exact note_rect_y | split; reflexivity]].
  unfold note_rect. simpl x. unfold int_add.
  rewrite (int_wrap_small (index * 50)) by lia.
  rewrite int_wrap_small by lia. lia.
Qed.

(** X12.  For every pitch index of the scale the rectangle that
    [drawNoteRectangle] fills is a 50 by 50 square at [x = 50 index + 50],
    [y = 640], inside the 1024 by 768 window; the squares of two
    different notes do not overlap. *)
Theorem note_rect_geometry (i j : Z) :
  (0 <= i < 8)%Z ->
  (x (note_rect i) = 50 * i + 50 /\
   y (note_rect i) = 640 /\
   w (note_rect i) = 50 /\
   h (note_rect i) = 50 /\
   0 <= x (note_rect i) /\
   x (note_rect i) + w (note_rect i) <= WIDTH /\
   0 <= y (note_rect i) /\
   y (note_rect i) + h (note_rect i) <= HEIGHT /\
   (i < j < 8 ->
    x (note_rect i) + w (note_rect i) <= x (note_rect j)))%Z.
Proof.
  intros Hi. destruct (note_rect_fields i Hi) as (Ex & Ey & Ew & Eh).
  rewrite Ex, Ey, Ew, Eh. unfold WIDTH, HEIGHT.
  repeat (split; [lia || reflexivity |]).
  intros Hj. destruct (note_rect_fields j ltac:(lia)) as (Exj & _).
  rewrite Exj. lia.
Qed.

Lemma note_rect_geometry_witness :
  (x (note_rect 7) + w (note_rect 7) <= WIDTH /\
   x (note_rect 6) + w (note_rect 6) <= x (note_rect 7))%Z.
Proof.
  destruct (note_rect_geometry 7 7 ltac:(lia))
    as (_ & _ & _ & _ & _ & Hw & _).
  destruct (note_rect_geometry 6 7 ltac:(lia))
    as (_ & _ & _ & _ & _ & _ & _ & _ & Hd).
  split; [exact Hw | apply Hd; lia].
Defined.

Lemma pitchNames_NoDup : NoDup pitchNames.
Proof.
  unfold pitchNames.
  repeat (apply NoDup_cons;
          [simpl; intros Hin;
           repeat (destruct Hin as [Hin | Hin]; [discriminate Hin |]);
           exact Hin |]).
  apply NoDup_nil.
Qed.

Lemma pitch_names_aligned (k : Z) :
  pitchNames_at k = None <-> pitches_at k = None.
Proof.
  unfold pitchNames_at, pitches_at.
  destruct (k <? 0)%Z; [tauto |].
  rewrite !nth_error_None. reflexivity.
Qed.

(** X13.  The table of note names matches the table of pitches: a pitch
    index has a name exactly when it has a pitch, and two indices with
    the same name are the same index, so the label on screen tells the
    note. *)
Theorem pitch_names_match_pitches (i j : Z) :
  (pitchNames_at i = None <-> pitches_at i = None) /\
  (forall name,
     pitchNames_at i = Some name -> pitchNames_at j = Some name -> i = j).
Proof.
  split.
  - apply pitch_names_aligned.
  - intros name. unfold pitchNames_at.
    destruct (Z.ltb_spec i 0) as [| Hi]; [discriminate |].
    destruct (Z.ltb_spec j 0) as [| Hj]; [discriminate |].
    intros Ei Ej.
    assert (Z.to_nat i < length pitchNames)%nat as Hlt
      by (apply nth_error_Some; congruence).
    pose proof (proj1 (NoDup_nth_error pitchNames) pitchNames_NoDup
                  (Z.to_nat i) (Z.to_nat j) Hlt) as Hinj.
    rewrite Ei, Ej in Hinj. specialize (Hinj eq_refl). lia.
Qed.

Lemma pitch_names_match_pitches_witness :
  pitchNames_at 8 = None /\ pitches_at 8 = None.
Proof.
  assert (pitches_at 8 = None) as Hp by reflexivity.
  split; [| exact Hp].
  apply (pitch_names_match_pitches 8 8). exact Hp.
Defined.

End Display.

Section Loop.

Import GameLoop.

Lemma handle_event_pitch_in_range (st : state) (e : SDL_Event) :
  pitch_in_range st -> pitch_in_range (handle_event st e).
Proof.
  intros H. destruct e as [key | |]; simpl.
  - apply checkKey_pitch_in_range. assumption.
  - exact H.
  - exact H.
Qed.

Lemma poll_events_pitch_in_range (pending : list SDL_Event) :
  forall st, pitch_in_range st -> pitch_in_range (poll_events pending st).
Proof.
  unfold poll_events.
  induction pending as [| e pending IH]; intros st H; simpl.
  - exact H.
  - apply IH. apply handle_event_pitch_in_range. exact H.
Qed.

Lemma pitchNames_at_in_range (st : state) :
  pitch_in_range st ->
  exists name, pitchNames_at (pitchindex (my_wavedata st)) = Some name.
Proof.
  intros H.
  destruct (pitchNames_at (pitchindex (my_wavedata st))) as [name |] eqn:E.
  - exists name. reflexivity.
  - apply (proj1 (pitch_names_aligned _)) in E.
    rewrite (pitches_at_in_range _ H) in E. discriminate.
Qed.

Lemma draw_frame_defined (st : state) :
  pitch_in_range st ->
  exists calls,
    draw_frame st = Some calls /\
    last calls RenderPresent = PauseAudioDevice (mute st) /\
    forall rect, In (RenderFillRect rect) calls ->
      (0 <= x rect /\ x rect + w rect <= WIDTH /\
       0 <= y rect /\ y rect + h rect <= HEIGHT)%Z.
Proof.
  intros H. destruct (pitchNames_at_in_range st H) as (name & E).
  unfold draw_frame. rewrite E. eexists. split; [reflexivity |].
  unfold pitch_in_range in H. rewrite scale_length_is_8 in H.
  destruct (note_rect_fields _ H) as (Ex & Ey & Ew & Eh).
  split.
  - destruct (colorblind st =? 0)%Z; reflexivity.
  - intros rect Hin.
    assert (rect = note_rect (pitchindex (my_wavedata st))) as ->.
    { destruct (colorblind st =? 0)%Z; simpl in Hin;
        repeat (destruct Hin as [Hin | Hin];
                [try discriminate Hin; injection Hin as <-; reflexivity |]);
        contradiction. }
    rewrite Ex, Ey, Ew, Eh. unfold WIDTH, HEIGHT. lia.
Qed.

(** X14.  From a state whose pitch index is in the scale the loop of
    [main] never reads [pitchNames] out of bounds, whatever events
    arrive: every turn draws its frame, at most one frame per turn, every
    rectangle filled lies inside the window, and every frame ends by
    pausing or resuming the audio device according to [mute]. *)
Theorem game_loop_draws (frames : list (list SDL_Event)) (st : state) :
  pitch_in_range st ->
  exists drawn st',
    game_loop frames st = Some (drawn, st') /\
    pitch_in_range st' /\
    (length drawn <= length frames)%nat /\
    Forall (fun calls =>
              (exists m, last calls RenderPresent = PauseAudioDevice m) /\
              forall rect, In (RenderFillRect rect) calls ->
                (0 <= x rect /\ x rect + w rect <= WIDTH /\
                 0 <= y rect /\ y rect + h rect <= HEIGHT)%Z)
           drawn.
Proof.
  revert st. induction frames as [| pending later IH]; intros st H.
  - exists [], st. split; [reflexivity |]. split; [assumption |].
    split; [simpl; lia | constructor].
  - simpl. destruct (quit st =? 0)%Z.
    + pose proof (poll_events_pitch_in_range pending st H) as H1.
      destruct (draw_frame_defined _ H1) as (calls & Ed & Hlast & Hrect).
      rewrite Ed.
      destruct (IH _ H1) as (drawn & st' & El & Hin' & Hlen & Hall).
      rewrite El. exists (calls :: drawn), st'.
      split; [reflexivity |]. split; [assumption |].
      split; [simpl; lia |].
      constructor; [| assumption].
      split; [eexists; exact Hlast | exact Hrect].
    + exists [], st. split; [reflexivity |]. split; [assumption |].
      split; [simpl; lia | constructor].
Qed.

Lemma game_loop_draws_witness :
  exists drawn st',
    game_loop [[SDL_KEYDOWN SDLK_UP; SDL_OTHER]; [SDL_QUIT]; []]
              initial_state
      = Some (drawn, st') /\
    pitch_in_range st' /\
    (length drawn <= 3)%nat.
Proof.
  destruct (game_loop_draws
              [[SDL_KEYDOWN SDLK_UP; SDL_OTHER]; [SDL_QUIT]; []]
              initial_state initial_pitch_in_range)
    as (drawn & st' & E & Hin & Hlen & _).
  exists drawn, st'. split; [exact E |]. split; [exact Hin | exact Hlen].
Defined.

Lemma handle_event_quits (st : state) (e : SDL_Event) :
  quits e -> quit (handle_event st e) = 1%Z.
Proof. intros [-> | [-> | ->]]; reflexivity. Qed.

Lemma handle_event_no_quit (st : state) (e : SDL_Event) :
  ~ quits e -> quit (handle_event st e) = quit st.
Proof.
  unfold quits. intros Hn. destruct e as [key | |]; simpl.
  - rewrite checkKey_quit_field.
    destruct (Z.eqb_spec key SDLK_ESCAPE) as [-> | _]; [tauto |].
    destruct (Z.eqb_spec key SDLK_q) as [-> | _]; [tauto |].
    reflexivity.
  - tauto.
  - reflexivity.
Qed.

Lemma handle_event_quit_sticky (st : state) (e : SDL_Event) :
  quit st = 1%Z -> quit (handle_event st e) = 1%Z.
Proof.
  intros H. destruct e as [key | |]; simpl; try assumption; try reflexivity.
  rewrite checkKey_quit_field, H.
  destruct ((key =? SDLK_ESCAPE) || (key =? SDLK_q))%Z; reflexivity.
Qed.

Lemma poll_events_quit_sticky (pending : list SDL_Event) :
  forall st, quit st = 1%Z -> quit (poll_events pending st) = 1%Z.
Proof.
  unfold poll_events.
  induction pending as [| e pending IH]; intros st H; simpl.
  - exact H.
  - apply IH. apply handle_event_quit_sticky. exact H.
Qed.

Lemma poll_events_no_quit (pending : list SDL_Event) :
  Forall (fun e => ~ quits e) pending ->
  forall st, quit (poll_events pending st) = quit st.
Proof.
  unfold poll_events. induction 1 as [| e pending He _ IH]; intros st.
  - reflexivity.
  - simpl. rewrite IH. apply handle_event_no_quit. exact He.
Qed.

Lemma poll_events_quits (pending : list SDL_Event) :
  Exists quits pending ->
  forall st, quit (poll_events pending st) = 1%Z.
Proof.
  induction 1 as [e pending He | e pending _ IH]; intros st.
  - apply (poll_events_quit_sticky pending (handle_event st e)).
    apply handle_event_quits. exact He.
  - apply (IH (handle_event st e)).
Qed.

(** X15.  The loop of [main] ends with the first turn in which ESCAPE, q
    or a window-close event is pending.  That turn still handles every
    event pending with it, before and after the quitting one, and still
    draws its frame; the turns after it are never run.  While no such
    event arrives every turn draws a frame and [quit] stays 0. *)
Theorem game_loop_quits
    (before : list (list SDL_Event)) (pending : list SDL_Event)
    (after : list (list SDL_Event)) (st : state) :
  pitch_in_range st -> quit st = 0%Z ->
  Forall (Forall (fun e => ~ quits e)) before ->
  (exists drawn,
     game_loop before st
       = Some (drawn,
               fold_left (fun s evs => poll_events evs s) before st) /\
     length drawn = length before /\
     quit (fold_left (fun s evs => poll_events evs s) before st) = 0%Z) /\
  (Exists quits pending ->
   exists drawn,
     game_loop (before ++ pending :: after) st
       = Some (drawn,
               poll_events pending
                 (fold_left (fun s evs => poll_events evs s) before st)) /\
     length drawn = S (length before) /\
     quit (poll_events pending
             (fold_left (fun s evs => poll_events evs s) before st))
     = 1%Z).
Proof.
  intros Hin Hq Hb. revert st Hin Hq.
  induction Hb as [| evs before Hevs Hb IH]; intros st Hin Hq.
  - split.
    + exists []. repeat split. exact Hq.
    + intros Hex. simpl. rewrite Hq. simpl.
      pose proof (poll_events_pitch_in_range pending st Hin) as Hin1.
      destruct (draw_frame_defined _ Hin1) as (calls & Ed & _).
      rewrite Ed.
      pose proof (poll_events_quits pending Hex st) as Hq1.
      exists [calls]. split; [| split; [reflexivity | exact Hq1]].
      destruct after as [| next after]; simpl; [reflexivity |].
      rewrite Hq1. reflexivity.
  - pose proof (poll_events_pitch_in_range evs st Hin) as Hin1.
    assert (quit (poll_events evs st) = 0%Z) as Hq1
      by (rewrite (poll_events_no_quit evs Hevs); exact Hq).
    destruct (draw_frame_defined _ Hin1) as (calls & Ed & _).
    destruct (IH _ Hin1 Hq1) as ((drawn & El & Hlen & Hq') & Hquit).
    split.
    + simpl. rewrite Hq. simpl. rewrite Ed, El.
      exists (calls :: drawn).
      split; [reflexivity |]. split; [simpl; lia | exact Hq'].
    + intros Hex. destruct (Hquit Hex) as (drawn' & El' & Hlen' & Hq'').
      simpl. rewrite Hq. simpl. rewrite Ed, El'.
      exists (calls :: drawn').
      split; [reflexivity |]. split; [simpl; lia | exact Hq''].
Qed.

Lemma game_loop_quits_witness :
  exists drawn,
    game_loop ([[SDL_KEYDOWN SDLK_UP]]
               ++ [SDL_KEYDOWN SDLK_q; SDL_KEYDOWN SDLK_UP]
               :: [[SDL_KEYDOWN SDLK_UP]])
              initial_state
      = Some (drawn,
              poll_events [SDL_KEYDOWN SDLK_q; SDL_KEYDOWN SDLK_UP]
                (fold_left (fun s evs => poll_events evs s)
                           [[SDL_KEYDOWN SDLK_UP]] initial_state)) /\
    length drawn = 2%nat.
Proof.
  assert (~ quits (SDL_KEYDOWN SDLK_UP)) as Hup
    by (unfold quits; intros [H | [H | H]]; discriminate H).
  destruct (game_loop_quits [[SDL_KEYDOWN SDLK_UP]]
              [SDL_KEYDOWN SDLK_q; SDL_KEYDOWN SDLK_UP]
              [[SDL_KEYDOWN SDLK_UP]] initial_state
              initial_pitch_in_range eq_refl
              ltac:(repeat constructor; exact Hup)) as (_ & Hquit).
  destruct Hquit as (drawn & E & Hlen & _).
  - apply Exists_cons_hd. right. right. reflexivity.
  - exists drawn. split; [exact E | exact Hlen].
Defined.

End Loop.

(** * The callback of sdltest.c *)

Section SdlTestMore.

(** The envelope, as a function of the amplitude alone. *)
Lemma sdltest_amplitude_iter (n len : nat) (wd : SdlTest.wavedata) :
  SdlTest.modulator_amplitude (SdlTest.render_calls n len wd)
  = Nat.iter n
      (fun amp => if Rlt_dec 0 amp then amp - 0.0066666666 else 0.4)
      (SdlTest.modulator_amplitude wd).
Proof.
  induction n as [| n IH]; [reflexivity |].
  rewrite render_calls_succ, sdltest_amplitude_step, IH. reflexivity.
Qed.

Lemma iter_add (A : Type) (f : A -> A) (n m : nat) (v : A) :
  Nat.iter (n + m) f v = Nat.iter n f (Nat.iter m f v).
Proof. induction n as [| n IH]; simpl; [| rewrite IH]; reflexivity. Qed.

Lemma sdltest_amplitude_62 (len : nat) (wd : SdlTest.wavedata) :
  SdlTest.modulator_amplitude wd = 0.4 ->
  SdlTest.modulator_amplitude (SdlTest.render_calls 62 len wd) = 0.4.
Proof.
  intros Hw. rewrite render_calls_succ, sdltest_amplitude_step.
  rewrite (sdltest_amplitude_decay wd len 61 Hw) by lia.
  replace (INR 61) with 61 by (rewrite INR_IZR_INZ; reflexivity).
  destruct (Rlt_dec 0 _); [lra | reflexivity].
Qed.

Lemma sdltest_amplitude_range_step (amp : R) :
  - 0.0066666666 < amp <= 0.4 ->
  - 0.0066666666
  < (if Rlt_dec 0 amp then amp - 0.0066666666 else 0.4) <= 0.4.
Proof. intros H. destruct (Rlt_dec 0 amp); lra. Qed.

(** X16.  The envelope of [sdltest.c] is periodic and bounded.  From the
    maximum 0.4 the modulator amplitude repeats every 62 calls of the
    callback; and an amplitude in [(-0.0066666666, 0.4]] stays there
    after any number of calls. *)
Theorem sdltest_envelope_periodic
    (wd : SdlTest.wavedata) (len n k : nat) :
  (SdlTest.modulator_amplitude wd = 0.4 ->
   SdlTest.modulator_amplitude (SdlTest.render_calls (n + 62 * k) len wd)
   = SdlTest.modulator_amplitude (SdlTest.render_calls n len wd)) /\
  (- 0.0066666666 < SdlTest.modulator_amplitude wd <= 0.4 ->
   - 0.0066666666
   < SdlTest.modulator_amplitude (SdlTest.render_calls n len wd) <= 0.4).
Proof.
  split.
  - intros Hw. rewrite !sdltest_amplitude_iter, iter_add. f_equal.
    pose proof (sdltest_amplitude_62 len wd Hw) as H62.
    rewrite sdltest_amplitude_iter in H62. rewrite Hw in *.
    induction k as [| k IH]; [reflexivity |].
    replace (62 * S k)%nat with (62 * k + 62)%nat by lia.
    rewrite iter_add, H62. exact IH.
  - intros Hr. rewrite sdltest_amplitude_iter.
    induction n as [| n IH]; [exact Hr |].
    simpl Nat.iter. apply sdltest_amplitude_range_step. exact IH.
Qed.

Lemma sdltest_envelope_periodic_witness :
  SdlTest.modulator_amplitude
    (SdlTest.render_calls (5 + 62 * 3) 3200 SdlTest.initial_wavedata)
  = SdlTest.modulator_amplitude
      (SdlTest.render_calls 5 3200 SdlTest.initial_wavedata).
Proof.
  apply (sdltest_envelope_periodic SdlTest.initial_wavedata 3200 5 3).
  reflexivity.
Defined.

Lemma sdltest_render_calls_pitches (n len : nat) :
  forall wd,
    SdlTest.carrier_pitch (SdlTest.render_calls n len wd)
      = SdlTest.carrier_pitch wd /\
    SdlTest.modulator_pitch (SdlTest.render_calls n len wd)
      = SdlTest.modulator_pitch wd.
Proof.
  induction n as [| n IH]; intros wd; [split; reflexivity |].
  change (SdlTest.render_calls (S n) len wd)
    with (SdlTest.render_calls n len
            (snd (SdlTest.generateWaveform wd len))).
  destruct (IH (snd (SdlTest.generateWaveform wd len))) as (E1 & E2).
  rewrite E1, E2. split; reflexivity.
Qed.

(** X17.  The callback of [sdltest.c] writes [len / 4] floats, never
    past the stream, each in [[-1, 1]], and never changes the two
    pitches, over any number of calls. *)
Theorem sdltest_render_bounds (wd : SdlTest.wavedata) (len n : nat) :
  length (fst (SdlTest.generateWaveform wd len)) = (len / sizeof_float)%nat /\
  (sizeof_float * length (fst (SdlTest.generateWaveform wd len)) <= len)%nat /\
  Forall (fun s => -1 <= s <= 1) (fst (SdlTest.generateWaveform wd len)) /\
  SdlTest.carrier_pitch (SdlTest.render_calls n len wd)
    = SdlTest.carrier_pitch wd /\
  SdlTest.modulator_pitch (SdlTest.render_calls n len wd)
    = SdlTest.modulator_pitch wd.
Proof.
  assert (length (fst (SdlTest.generateWaveform wd len))
          = (len / sizeof_float)%nat) as Hlen.
  { unfold SdlTest.generateWaveform. simpl fst.
    rewrite length_map, length_seq. reflexivity. }
  split; [exact Hlen |]. split; [| split].
  - rewrite Hlen. apply Nat.Div0.mul_div_le.
  - unfold SdlTest.generateWaveform. simpl fst.
    apply Forall_map, Forall_forall. intros i _.
    unfold SdlTest.sample_value. apply SIN_bound.
  - apply sdltest_render_calls_pitches.
Qed.

Lemma sdltest_generate_snd (wd : SdlTest.wavedata) (len : nat) :
  snd (SdlTest.generateWaveform wd len)
  = SdlTest.mkWavedata
      (fmod (IZR (SdlTest.carrier_pitch wd) * (2 * PI)
               * INR (len / sizeof_float) / 48000
             + SdlTest.carrier_phase wd) (2 * PI))
      (fmod (IZR (SdlTest.modulator_pitch wd) * (2 * PI)
               * INR (len / sizeof_float) / 48000
             + SdlTest.modulator_phase wd) (2 * PI))
      (if Rlt_dec 0 (SdlTest.modulator_amplitude wd)
       then SdlTest.modulator_amplitude wd - 0.0066666666
       else 0.4)
      (SdlTest.carrier_pitch wd)
      (SdlTest.modulator_pitch wd).
Proof. reflexivity. Qed.

Lemma sdltest_phases_step (wd : SdlTest.wavedata) (len : nat) :
  (0 <= SdlTest.carrier_pitch wd)%Z ->
  (0 <= SdlTest.modulator_pitch wd)%Z ->
  0 <= SdlTest.carrier_phase wd -> 0 <= SdlTest.modulator_phase wd ->
  phase_in_range
    (SdlTest.carrier_phase (snd (SdlTest.generateWaveform wd len))) /\
  phase_in_range
    (SdlTest.modulator_phase (snd (SdlTest.generateWaveform wd len))).
Proof.
  intros Hcp Hmp Hc Hm. apply IZR_le in Hcp, Hmp.
  pose proof TAU_pos as Ht.
  rewrite sdltest_generate_snd. unfold phase_in_range.
  cbn [SdlTest.carrier_phase SdlTest.modulator_phase].
  rewrite <- TAU_eq.
  split; apply fmod_range; try exact Ht;
    apply phase_advance_nonneg; assumption.
Qed.

(** X18.  In [sdltest.c], with non-negative pitches and non-negative
    phases, both phases are in [[0, 2 PI)] after every call of the
    callback, whatever the buffer length, and so after any positive
    number of calls. *)
Theorem sdltest_phases_in_range (wd : SdlTest.wavedata) (len n : nat) :
  (0 <= SdlTest.carrier_pitch wd)%Z ->
  (0 <= SdlTest.modulator_pitch wd)%Z ->
  0 <= SdlTest.carrier_phase wd -> 0 <= SdlTest.modulator_phase wd ->
  phase_in_range
    (SdlTest.carrier_phase (SdlTest.render_calls (S n) len wd)) /\
  phase_in_range
    (SdlTest.modulator_phase (SdlTest.render_calls (S n) len wd)).
Proof.
  intros Hcp Hmp Hc Hm.
  induction n as [| n IH].
  - apply (sdltest_phases_step wd len); assumption.
  - rewrite render_calls_succ.
    destruct (sdltest_render_calls_pitches (S n) len wd) as (Ec & Em).
    destruct IH as ([Hc' _] & [Hm' _]).
    apply sdltest_phases_step; try assumption.
    + rewrite Ec. assumption.
    + rewrite Em. assumption.
Qed.

Lemma sdltest_phases_in_range_witness :
  phase_in_range
    (SdlTest.carrier_phase
       (SdlTest.render_calls 3 3200 SdlTest.initial_wavedata)) /\
  phase_in_range
    (SdlTest.modulator_phase
       (SdlTest.render_calls 3 3200 SdlTest.initial_wavedata)).
Proof.
  apply (sdltest_phases_in_range SdlTest.initial_wavedata 3200 2).
  - simpl. lia.
  - simpl. lia.
  - simpl. lra.
  - simpl. lra.
Defined.

End SdlTestMore.
